(** * Statify: user store, session gate and Spotify proxy handlers

    A shallow embedding of [server/storage.ts] and [server/routes.ts].

    Modelling conventions
    - A JavaScript string is the list of its UTF-16 code units.
    - A JavaScript number that holds an id, a counter or a time stamp is
      an integer of [Z]; [NaN] (only produced by [parseInt]) is [None].
      A number is a double: the integers are exact between [-2^53] and
      [2^53], and [x + 1] no longer advances from [2^53] on. Statements
      about arbitrary counters carry that bound.
    - A [Map] is a [gmap]; [Map.set] is insert and [Map.get] is lookup.
    - An optional or nullable field is an [option].
    - The upstream Spotify API is a function from the request issued by
      [axios.get] to its outcome; a handler returns its HTTP response
      together with the list of upstream requests it issued. *)

From Stdlib Require Import ZArith NArith String Ascii List Sorted.
From stdpp Require Import base decidable countable numbers option list gmap.

Local Open Scope Z_scope.

(** ** JavaScript strings *)

Module Js.

Abbreviation jsstring := (list N).

(** A string literal of the source, as code units. *)
Definition lit (s : string) : jsstring :=
  List.map N_of_ascii (list_ascii_of_string s).

(** Truthiness of a possibly-undefined string: [undefined] and the
    empty string are falsy. *)
Definition truthy_string (o : option jsstring) : bool :=
  match o with
  | Some (_ :: _) => true
  | _ => false
  end.

(** [a || d] on a possibly-undefined string. *)
Definition or_default (o : option jsstring) (d : jsstring) : jsstring :=
  match o with
  | Some (c :: s) => c :: s
  | _ => d
  end.

(** WhiteSpace and LineTerminator code units (ECMAScript 12.2, 12.3),
    the characters removed by [String.prototype.trim] and skipped by
    [parseInt]. *)
Definition is_white_space (c : N) : bool :=
  ((9 <=? c) && (c <=? 13) || (c =? 32) || (c =? 160) || (c =? 5760)
   || (8192 <=? c) && (c <=? 8202) || (c =? 8232) || (c =? 8233)
   || (c =? 8239) || (c =? 8287) || (c =? 12288) || (c =? 65279))%N.

Fixpoint trim_start (s : jsstring) : jsstring :=
  match s with
  | c :: s' => if is_white_space c then trim_start s' else s
  | [] => []
  end.

Definition trim_end (s : jsstring) : jsstring :=
  rev (trim_start (rev s)).

(** [s.trim()] *)
Definition trim (s : jsstring) : jsstring := trim_end (trim_start s).

(** [s.split(sep)] for a one-unit separator: the segments between the
    occurrences of [sep]; [cur] is the segment being read, reversed. *)
Fixpoint split_from (sep : N) (cur : jsstring) (s : jsstring)
  : list jsstring :=
  match s with
  | [] => [rev cur]
  | c :: s' =>
      if (c =? sep)%N then rev cur :: split_from sep [] s'
      else split_from sep (c :: cur) s'
  end.

Definition split (sep : N) (s : jsstring) : list jsstring :=
  split_from sep [] s.

Fixpoint starts_with (p s : jsstring) : bool :=
  match p, s with
  | [], _ => true
  | a :: p', b :: s' => (a =? b)%N && starts_with p' s'
  | _ :: _, [] => false
  end.

(** [s.includes(p)] *)
Fixpoint includes (p s : jsstring) : bool :=
  starts_with p s ||
  match s with
  | [] => false
  | _ :: s' => includes p s'
  end.

Definition is_digit (c : N) : bool := ((48 <=? c) && (c <=? 57))%N.

Fixpoint digits_from (acc : option Z) (s : jsstring) : option Z :=
  match s with
  | c :: s' =>
      if is_digit c
      then digits_from (Some (10 * default 0 acc + Z.of_N (c - 48))) s'
      else acc
  | [] => acc
  end.

(** [parseInt(s, 10)]: leading white space is skipped, one sign is
    read, then the longest run of decimal digits; [None] is [NaN]. *)
Definition parseInt10 (s : jsstring) : option Z :=
  match trim_start s with
  | 45%N :: s' => Z.opp <$> digits_from None s'
  | 43%N :: s' => digits_from None s'
  | s' => digits_from None s'
  end.

End Js.

Import Js.

(** ** The user record ([shared/schema.ts]) *)

Record User := mkUser {
  id : Z;
  spotifyId : jsstring;
  displayName : jsstring;
  email : option jsstring;
  accessToken : jsstring;
  refreshToken : jsstring;
  tokenExpiry : Z;
  profileImage : option jsstring;
  followers : option Z
}.

(** [InsertUser]: the user record without its [id]. *)
Record InsertUser := mkInsertUser {
  ins_spotifyId : jsstring;
  ins_displayName : jsstring;
  ins_email : option jsstring;
  ins_accessToken : jsstring;
  ins_refreshToken : jsstring;
  ins_tokenExpiry : Z;
  ins_profileImage : option jsstring;
  ins_followers : option Z
}.

(** ** The in-memory store ([server/storage.ts]) *)

Module MemStorage.

Record t := mk {
  users : gmap Z User;
  spotifyIdToUserId : gmap jsstring Z;
  currentId : Z
}.

(** [constructor()] *)
Definition new : t :=
  {| users := ∅; spotifyIdToUserId := ∅; currentId := 1 |}.

(** [getUser(id)] *)
Definition getUser (s : t) (i : Z) : option User := users s !! i.

(** [getUserBySpotifyId(spotifyId)]; [!userId] holds of [undefined]
    and of [0]. *)
Definition getUserBySpotifyId (s : t) (sid : jsstring) : option User :=
  match spotifyIdToUserId s !! sid with
  | None => None
  | Some userId => if userId =? 0 then None else users s !! userId
  end.

(** [createUser(insertUser)]: [{ ...insertUser, id }] with
    [id = this.currentId++]; the increment is exact while the counter is
    below [2^53]. *)
Definition createUser (s : t) (d : InsertUser) : User * t :=
  let i := currentId s in
  let user :=
    {| id := i;
       spotifyId := ins_spotifyId d;
       displayName := ins_displayName d;
       email := ins_email d;
       accessToken := ins_accessToken d;
       refreshToken := ins_refreshToken d;
       tokenExpiry := ins_tokenExpiry d;
       profileImage := ins_profileImage d;
       followers := ins_followers d |} in
  (user,
   {| users := <[i := user]> (users s);
      spotifyIdToUserId := <[ins_spotifyId d := i]> (spotifyIdToUserId s);
      currentId := i + 1 |}).

(** [updateUserToken(id, accessToken, refreshToken, tokenExpiry)]:
    [{ ...user, accessToken, refreshToken, tokenExpiry }]. *)
Definition updateUserToken (s : t) (i : Z)
    (accessToken' refreshToken' : jsstring) (tokenExpiry' : Z)
  : option User * t :=
  match users s !! i with
  | None => (None, s)
  | Some user =>
      let updatedUser :=
        {| id := id user;
           spotifyId := spotifyId user;
           displayName := displayName user;
           email := email user;
           accessToken := accessToken';
           refreshToken := refreshToken';
           tokenExpiry := tokenExpiry';
           profileImage := profileImage user;
           followers := followers user |} in
      (Some updatedUser,
       {| users := <[i := updatedUser]> (users s);
          spotifyIdToUserId := spotifyIdToUserId s;
          currentId := currentId s |})
  end.

(** A call of one of the four methods of [IStorage]. *)
Inductive op :=
| GetUser (i : Z)
| GetUserBySpotifyId (sid : jsstring)
| CreateUser (d : InsertUser)
| UpdateUserToken (i : Z) (a r : jsstring) (e : Z).

(** The store after one call. *)
Definition step (s : t) (o : op) : t :=
  match o with
  | GetUser _ | GetUserBySpotifyId _ => s
  | CreateUser d => snd (createUser s d)
  | UpdateUserToken i a r e => snd (updateUserToken s i a r e)
  end.

(** The id a call hands out, if it is a [createUser]. *)
Definition created (s : t) (o : op) : list Z :=
  match o with
  | CreateUser d => [id (fst (createUser s d))]
  | _ => []
  end.

(** The ids handed out by a sequence of calls, in call order. *)
Fixpoint created_ids (s : t) (os : list op) : list Z :=
  match os with
  | [] => []
  | o :: os' => created s o ++ created_ids (step s o) os'
  end.

Definition run (s : t) (os : list op) : t := foldl step s os.

(** The stores the program can be in: the one the constructor builds,
    and any store a method call leaves behind. *)
Inductive reachable : t -> Prop :=
| reachable_new : reachable new
| reachable_step s o : reachable s -> reachable (step s o).

End MemStorage.

(** ** Requests, sessions and responses ([server/routes.ts]) *)

(** A value of [req.query] as the query parser builds it: a string, an
    array ([?a[]=x&a[]=y]) or a nested object ([?a[k]=x]). *)
#[local] Set Warnings "-register-all".
Inductive qvalue :=
| QString (s : jsstring)
| QArray (l : list qvalue)
| QObject (fields : list (jsstring * qvalue)).

(** [xs.join(sep)] *)
Fixpoint join (sep : jsstring) (xs : list jsstring) : jsstring :=
  match xs with
  | [] => []
  | [x] => x
  | x :: xs' => x ++ sep ++ join sep xs'
  end.

(** What a [throw] carries. *)
Inductive exn :=
| TypeError
| ZodError
| AxiosError
| Error (message : jsstring).

(** Whether a query object has an own property [k] ([?a[k]=x]). *)
Definition has_own (fields : list (jsstring * qvalue)) (k : jsstring)
  : bool :=
  bool_decide (k ∈ fields.*1).

(** [String(v)] / [v.toString()] of a query value. An array joins the
    strings of its elements with commas. An object is [[object Object]]
    through [Object.prototype.toString], unless it has an own property
    [toString]: that property is a query value, not a function, so the
    conversion throws a [TypeError]. *)
Fixpoint to_string (v : qvalue) : exn + jsstring :=
  match v with
  | QString s => inr s
  | QArray l =>
      let fix each (l : list qvalue) : exn + list jsstring :=
        match l with
        | [] => inr []
        | x :: l' =>
            match to_string x with
            | inl e => inl e
            | inr s =>
                match each l' with
                | inl e => inl e
                | inr ss => inr (s :: ss)
                end
            end
        end in
      match each l with
      | inl e => inl e
      | inr ss => inr (join [44%N] ss)
      end
  | QObject fields =>
      if has_own fields (lit "toString") then inl TypeError
      else inr (lit "[object Object]")
  end.

(** [v || d] on a query value: [undefined] and [""] are falsy, arrays and
    objects are truthy. *)
Definition qor (v : option qvalue) (d : qvalue) : qvalue :=
  match v with
  | None | Some (QString []) => d
  | Some v' => v'
  end.

(** [!v] on a query value. *)
Definition qfalsy (v : option qvalue) : bool :=
  match v with
  | None | Some (QString []) => true
  | Some _ => false
  end.

(** [SessionData] as the module augmentation declares it. *)
Module Session.

Record t := mk {
  userId : option Z;
  spotifyId : option jsstring;
  authenticated : option bool
}.

End Session.

(** [process.env], the variables the routes read. *)
Record Env := mkEnv {
  SPOTIFY_CLIENT_ID : option jsstring;
  SPOTIFY_CLIENT_SECRET : option jsstring;
  REPLIT_DOMAINS : option jsstring;
  NODE_ENV : option jsstring
}.

Record Request := mkRequest {
  session : option Session.t;
  query : gmap jsstring qvalue;
  headers_host : option jsstring
}.

(** The request [axios.get(url, { headers, params })] sends upstream.
    [params_limit] is the number [parseInt] returned, [None] for [NaN]. *)
Record UpstreamRequest := mkUpstreamRequest {
  url : jsstring;
  headers_Authorization : jsstring;
  params_time_range : option jsstring;
  params_limit : option Z
}.

(** The request [axios.post] sends to the token endpoint. *)
Record TokenRequest := mkTokenRequest {
  token_url : jsstring;
  form_code : jsstring;
  form_redirect_uri : jsstring;
  form_grant_type : jsstring;
  basic_credentials : jsstring * jsstring
}.

Definition SPOTIFY_AUTH_URL : jsstring :=
  lit "https://accounts.spotify.com/authorize".
Definition SPOTIFY_TOKEN_URL : jsstring :=
  lit "https://accounts.spotify.com/api/token".
Definition SPOTIFY_API_BASE : jsstring := lit "https://api.spotify.com/v1".
Definition SCOPES : jsstring :=
  join (lit " ")
    [lit "user-read-private"; lit "user-read-email"; lit "user-top-read"].

(** [z.enum(["short_term", "medium_term", "long_term"])] *)
Definition timeRangeSchema : list jsstring :=
  [lit "short_term"; lit "medium_term"; lit "long_term"].

(** [!req.session || !req.session.authenticated || !req.session.userId] *)
Definition no_valid_session (req : Request) : bool :=
  match session req with
  | None => true
  | Some s =>
      negb (default false (Session.authenticated s))
      || match Session.userId s with
         | None => true
         | Some uid => uid =? 0
         end
  end.

(** [req.session.userId] once the guard above has let the request
    through. *)
Definition session_userId (req : Request) : option Z :=
  if no_valid_session req then None
  else s ← session req; Session.userId s.

(** *** Redirect URI

    Lines 58-70 of the login route. [TypeError] stands for calling
    [.trim()] on an [undefined] first segment. *)
Definition login_redirectUri (env : Env) (req : Request) : exn + jsstring :=
  let replitUrl := REPLIT_DOMAINS env in
  if truthy_string replitUrl then
    match split 44 (default [] replitUrl) !! 0%nat with
    | None => inl TypeError
    | Some first =>
        let domain := trim first in
        inr (lit "https://" ++ domain ++ lit "/api/auth/callback")
    end
  else
    let host := or_default (headers_host req) (lit "localhost:5000") in
    let protocol :=
      if includes (lit "localhost") host then lit "http" else lit "https" in
    inr (protocol ++ lit "://" ++ host ++ lit "/api/auth/callback").

(** Lines 98-110 of the callback route. *)
Definition callback_redirectUri (env : Env) (req : Request)
  : exn + jsstring :=
  let replitUrl := REPLIT_DOMAINS env in
  if truthy_string replitUrl then
    match split 44 (default [] replitUrl) !! 0%nat with
    | None => inl TypeError
    | Some first =>
        let domain := trim first in
        inr (lit "https://" ++ domain ++ lit "/api/auth/callback")
    end
  else
    let host := or_default (headers_host req) (lit "localhost:5000") in
    let protocol :=
      if includes (lit "localhost") host then lit "http" else lit "https" in
    inr (protocol ++ lit "://" ++ host ++ lit "/api/auth/callback").

(** The authorization URL of the login route: [SPOTIFY_AUTH_URL] and the
    search parameters appended to it, in order. *)
Record AuthUrl := mkAuthUrl {
  auth_base : jsstring;
  searchParams : list (jsstring * jsstring)
}.

(** The outcome of [GET /api/auth/login]. *)
Inductive LoginResult :=
| LoginNotConfigured
| LoginUrl (u : AuthUrl)
| LoginThrows (e : exn).

Definition auth_login (env : Env) (req : Request) : LoginResult :=
  match SPOTIFY_CLIENT_ID env with
  | Some (c :: cs) =>
      let clientId := c :: cs in
      match login_redirectUri env req with
      | inl e => LoginThrows e
      | inr redirectUri =>
          LoginUrl
            {| auth_base := SPOTIFY_AUTH_URL;
               searchParams :=
                 [(lit "client_id", clientId);
                  (lit "response_type", lit "code");
                  (lit "redirect_uri", redirectUri);
                  (lit "scope", SCOPES);
                  (lit "show_dialog", lit "true")] |}
      end
  | _ => LoginNotConfigured
  end.

(** The token exchange the callback route sends, or what it throws
    before sending it (lines 89-128); [code.toString()] is evaluated
    while the form is built, before [axios.post] is called. *)
Definition callback_token_request (env : Env) (req : Request)
  : exn + TokenRequest :=
  let code := query req !! lit "code" in
  let clientId := SPOTIFY_CLIENT_ID env in
  let clientSecret := SPOTIFY_CLIENT_SECRET env in
  if qfalsy code || negb (truthy_string clientId)
     || negb (truthy_string clientSecret)
  then inl (Error (lit "Missing code or credentials"))
  else
    match callback_redirectUri env req with
    | inl e => inl e
    | inr redirectUri =>
        match from_option to_string (inr []) code with
        | inl e => inl e
        | inr code_text =>
            inr {| token_url := SPOTIFY_TOKEN_URL;
                   form_code := code_text;
                   form_redirect_uri := redirectUri;
                   form_grant_type := lit "authorization_code";
                   basic_credentials :=
                     (default [] clientId, default [] clientSecret) |}
        end
    end.

(** *** Handlers

    A handler body either completes with a value or throws, and leaves
    behind the upstream requests it issued, oldest first. *)
Definition Handler (A : Type) : Type := (exn + A) * list UpstreamRequest.

Definition ret {A} (a : A) : Handler A := (inr a, []).

Definition throw {A} (e : exn) : Handler A := (inl e, []).

(** A step that sends nothing: its value, or what it throws. *)
Definition lift {A} (r : exn + A) : Handler A := (r, []).

Definition bind {A B} (m : Handler A) (k : A -> Handler B) : Handler B :=
  match m with
  | (inl e, tr) => (inl e, tr)
  | (inr a, tr) => let '(r, tr') := k a in (r, tr ++ tr')
  end.

(** [try { m } catch (error) { h }] *)
Definition try_catch {A} (m : Handler A) (h : exn -> A)
  : A * list UpstreamRequest :=
  match m with
  | (inl e, tr) => (h e, tr)
  | (inr a, tr) => (a, tr)
  end.

Notation "'let*' x := m 'in' k" := (bind m (fun x => k))
  (at level 10, x name, m at level 100, k at level 200,
   format "'[v' 'let*'  x  :=  m  'in' '/' k ']'").

(** [timeRangeSchema.parse(v)]: the value itself when it is a string of
    the enumeration, a thrown [ZodError] otherwise. *)
Definition timeRangeSchema_parse (v : qvalue) : Handler jsstring :=
  match v with
  | QString s => if bool_decide (s ∈ timeRangeSchema) then ret s
                 else throw ZodError
  | _ => throw ZodError
  end.

Section Routes.

Context {Json : Type}.

(** The upstream API: the data of the response, [None] when the request
    fails (no connection, or a status that makes [axios] reject). *)
Variable upstream : UpstreamRequest -> option Json.

(** [await axios.get(...)], then [response.data]. *)
Definition axios_get (rq : UpstreamRequest) : Handler Json :=
  (match upstream rq with
   | Some data => inr data
   | None => inl AxiosError
   end, [rq]).

(** The [user] object of the [/api/auth/me] payload. *)
Record MeUser := mkMeUser {
  me_id : Z;
  me_spotifyId : jsstring;
  me_displayName : jsstring;
  me_email : option jsstring;
  me_profileImage : option jsstring;
  me_followers : option Z
}.

(** The JSON bodies the routes send. *)
Inductive Body :=
| Message (message : jsstring)
| NotAuthenticated (reason : option jsstring)
| Authenticated (user : MeUser)
| UpstreamData (data : Json).

Record Response := mkResponse {
  status : Z;
  body : Body
}.

(** [res.status(code).json(b)] and [res.json(b)] *)
Definition res_status_json (code : Z) (b : Body) : Response :=
  {| status := code; body := b |}.
Definition res_json (b : Body) : Response := res_status_json 200 b.

(** [GET /api/auth/me]; [date_now] is [Date.now()]. *)
Definition auth_me (st : MemStorage.t) (date_now : Z) (req : Request)
  : Response * list UpstreamRequest :=
  try_catch
    (match session_userId req with
     | None => ret (res_status_json 401 (NotAuthenticated None))
     | Some userId =>
         match MemStorage.getUser st userId with
         | None => ret (res_status_json 401 (NotAuthenticated None))
         | Some user =>
             let now := date_now `div` 1000 in
             if tokenExpiry user <=? now then
               ret (res_status_json 401
                      (NotAuthenticated (Some (lit "token_expired"))))
             else
               ret (res_json
                      (Authenticated
                         {| me_id := id user;
                            me_spotifyId := spotifyId user;
                            me_displayName := displayName user;
                            me_email := email user;
                            me_profileImage := profileImage user;
                            me_followers := followers user |}))
         end
     end)
    (fun error => res_status_json 500 (Message (lit "Server error"))).

(** [GET /api/me/top/artists]. The arguments of [axios.get] are
    evaluated before the call: [parseInt(limit as string, 10)] first
    turns [limit] into a string, and when that throws nothing is sent. *)
Definition top_artists (st : MemStorage.t) (req : Request)
  : Response * list UpstreamRequest :=
  try_catch
    (let timeRange :=
       qor (query req !! lit "time_range") (QString (lit "medium_term")) in
     let limit := qor (query req !! lit "limit") (QString (lit "20")) in
     let* parsedTimeRange := timeRangeSchema_parse timeRange in
     match session_userId req with
     | None => ret (res_status_json 401 (Message (lit "Unauthorized")))
     | Some userId =>
         match MemStorage.getUser st userId with
         | None => ret (res_status_json 401 (Message (lit "User not found")))
         | Some user =>
             let* limit_text := lift (to_string limit) in
             let* data :=
               axios_get
                 {| url := SPOTIFY_API_BASE ++ lit "/me/top/artists";
                    headers_Authorization :=
                      lit "Bearer " ++ accessToken user;
                    params_time_range := Some parsedTimeRange;
                    params_limit := parseInt10 limit_text |} in
             ret (res_json (UpstreamData data))
         end
     end)
    (fun error => res_status_json 500 (Message (lit "Server error"))).

(** [GET /api/me/top/tracks] *)
Definition top_tracks (st : MemStorage.t) (req : Request)
  : Response * list UpstreamRequest :=
  try_catch
    (let timeRange :=
       qor (query req !! lit "time_range") (QString (lit "medium_term")) in
     let limit := qor (query req !! lit "limit") (QString (lit "20")) in
     let* parsedTimeRange := timeRangeSchema_parse timeRange in
     match session_userId req with
     | None => ret (res_status_json 401 (Message (lit "Unauthorized")))
     | Some userId =>
         match MemStorage.getUser st userId with
         | None => ret (res_status_json 401 (Message (lit "User not found")))
         | Some user =>
             let* limit_text := lift (to_string limit) in
             let* data :=
               axios_get
                 {| url := SPOTIFY_API_BASE ++ lit "/me/top/tracks";
                    headers_Authorization :=
                      lit "Bearer " ++ accessToken user;
                    params_time_range := Some parsedTimeRange;
                    params_limit := parseInt10 limit_text |} in
             ret (res_json (UpstreamData data))
         end
     end)
    (fun error => res_status_json 500 (Message (lit "Server error"))).

(** [GET /api/me/player/recently-played] *)
Definition recently_played (st : MemStorage.t) (req : Request)
  : Response * list UpstreamRequest :=
  try_catch
    (let limit := qor (query req !! lit "limit") (QString (lit "20")) in
     match session_userId req with
     | None => ret (res_status_json 401 (Message (lit "Unauthorized")))
     | Some userId =>
         match MemStorage.getUser st userId with
         | None => ret (res_status_json 401 (Message (lit "User not found")))
         | Some user =>
             let* limit_text := lift (to_string limit) in
             let* data :=
               axios_get
                 {| url := SPOTIFY_API_BASE ++ lit "/me/player/recently-played";
                    headers_Authorization :=
                      lit "Bearer " ++ accessToken user;
                    params_time_range := None;
                    params_limit := parseInt10 limit_text |} in
             ret (res_json (UpstreamData data))
         end
     end)
    (fun error => res_status_json 500 (Message (lit "Server error"))).

(** The three proxy routes. *)
Inductive Endpoint := TopArtists | TopTracks | RecentlyPlayed.

Definition proxy (e : Endpoint) (st : MemStorage.t) (req : Request)
  : Response * list UpstreamRequest :=
  match e with
  | TopArtists => top_artists st req
  | TopTracks => top_tracks st req
  | RecentlyPlayed => recently_played st req
  end.

End Routes.

Arguments Body : clear implicits.
Arguments Response : clear implicits.

(** ** Store invariant and sample data *)

(** What every reachable store satisfies: the counter is positive and
    above every key in use, a record's [id] is its key, and an index
    entry points at a record carrying that external identity. *)
Record consistent (s : MemStorage.t) : Prop := mkConsistent {
  counter_pos : 1 <= MemStorage.currentId s;
  users_keys : forall i u,
    MemStorage.users s !! i = Some u -> id u = i /\ 1 <= i < MemStorage.currentId s;
  index_targets : forall sid i,
    MemStorage.spotifyIdToUserId s !! sid = Some i ->
    1 <= i < MemStorage.currentId s /\
    exists u, MemStorage.users s !! i = Some u /\ spotifyId u = sid
}.

(** A profile as the callback would store it, its token expiring at
    second 100. *)
Definition alice : InsertUser :=
  {| ins_spotifyId := lit "alice";
     ins_displayName := lit "Alice";
     ins_email := None;
     ins_accessToken := lit "BQD-old";
     ins_refreshToken := lit "AQC-old";
     ins_tokenExpiry := 100;
     ins_profileImage := None;
     ins_followers := Some 0 |}.

(** The store after Alice's first login; she has id 1. *)
Definition store_alice : MemStorage.t :=
  snd (MemStorage.createUser MemStorage.new alice).

(** The session the callback binds to Alice. *)
Definition session_alice : Session.t :=
  {| Session.userId := Some 1;
     Session.spotifyId := Some (lit "alice");
     Session.authenticated := Some true |}.

(** A session that was never bound. *)
Definition session_anonymous : Session.t :=
  {| Session.userId := None;
     Session.spotifyId := None;
     Session.authenticated := None |}.

Definition request (s : Session.t) (q : list (jsstring * qvalue)) : Request :=
  {| session := Some s; query := list_to_map q; headers_host := None |}.

(** [GET <route>] from Alice's browser, [GET <route>?time_range=bogus]
    and [GET <route>?time_range=] (the parameter present and empty). *)
Definition request_plain : Request := request session_alice [].
Definition request_bogus : Request :=
  request session_alice [(lit "time_range", QString (lit "bogus"))].
Definition request_empty_range : Request :=
  request session_alice [(lit "time_range", QString [])].

(** The same from a browser that never logged in. *)
Definition request_anonymous : Request := request session_anonymous [].
Definition request_anonymous_bogus : Request :=
  request session_anonymous [(lit "time_range", QString (lit "bogus"))].

(** Two environments with the same domain list, one of them flagged as
    production, and requests to the login and callback routes. *)
Definition env_dev : Env :=
  {| SPOTIFY_CLIENT_ID := Some (lit "client");
     SPOTIFY_CLIENT_SECRET := Some (lit "secret");
     REPLIT_DOMAINS := Some (lit " a.repl.co ,b.repl.co");
     NODE_ENV := None |}.
Definition env_production : Env :=
  {| SPOTIFY_CLIENT_ID := Some (lit "client");
     SPOTIFY_CLIENT_SECRET := Some (lit "secret");
     REPLIT_DOMAINS := Some (lit " a.repl.co ,b.repl.co");
     NODE_ENV := Some (lit "production") |}.
Definition request_login : Request :=
  {| session := None; query := ∅;
     headers_host := Some (lit "localhost:5000") |}.
Definition request_callback : Request :=
  {| session := None;
     query := {[ lit "code" := QString (lit "abc") ]};
     headers_host := Some (lit "localhost:5000") |}.

(** An upstream that answers every request, and one that fails. *)
Definition upstream_ok : UpstreamRequest -> option unit := fun _ => Some tt.
Definition upstream_down : UpstreamRequest -> option unit := fun _ => None.

(** *** The three proxy routes at once

    The routes differ in their path and in whether they read
    [time_range]. [proxy_outline] spells the control flow they share as
    one decision tree; [proxy_outline_correct] below proves it equal to
    each route, and the facts about the routes are read off it. *)

Definition endpoint_path (e : Endpoint) : jsstring :=
  match e with
  | TopArtists => lit "/me/top/artists"
  | TopTracks => lit "/me/top/tracks"
  | RecentlyPlayed => lit "/me/player/recently-played"
  end.

(** The validated [time_range] parameter: [inl] when validation throws,
    [inr None] on the route that has no such parameter. *)
Definition validated_time_range (e : Endpoint) (req : Request)
  : exn + option jsstring :=
  match e with
  | RecentlyPlayed => inr None
  | _ =>
      match timeRangeSchema_parse
              (qor (query req !! lit "time_range")
                 (QString (lit "medium_term"))) with
      | (inl err, _) => inl err
      | (inr tr, _) => inr (Some tr)
      end
  end.

Definition server_error {Json} : Response Json :=
  res_status_json 500 (Message (lit "Server error")).

Definition proxy_outline {Json} (upstream : UpstreamRequest -> option Json)
    (e : Endpoint) (st : MemStorage.t) (req : Request)
  : Response Json * list UpstreamRequest :=
  match validated_time_range e req with
  | inl _ => (server_error, [])
  | inr time_range =>
      match session_userId req with
      | None => (res_status_json 401 (Message (lit "Unauthorized")), [])
      | Some userId =>
          match MemStorage.getUser st userId with
          | None =>
              (res_status_json 401 (Message (lit "User not found")), [])
          | Some user =>
              match to_string
                      (qor (query req !! lit "limit") (QString (lit "20")))
              with
              | inl _ => (server_error, [])
              | inr limit_text =>
                  let rq :=
                    {| url := SPOTIFY_API_BASE ++ endpoint_path e;
                       headers_Authorization :=
                         lit "Bearer " ++ accessToken user;
                       params_time_range := time_range;
                       params_limit := parseInt10 limit_text |} in
                  (match upstream rq with
                   | Some data => res_json (UpstreamData data)
                   | None => server_error
                   end, [rq])
              end
          end
      end
  end.

(** ** The OAuth callback ([GET /api/auth/callback])

    The data the two upstream calls of the callback return, typed as
    the route reads them: [tokenResponse.data] with its three fields,
    and the profile of [SpotifyProfile] ([shared/schema.ts]), where
    [images] and [followers] may be missing ([profile.images?.[0]?.url],
    [profile.followers?.total]). An image is represented by its [url]. *)

Record TokenResponse := mkTokenResponse {
  access_token : jsstring;
  refresh_token : jsstring;
  expires_in : Z
}.

Record SpotifyProfile := mkSpotifyProfile {
  profile_id : jsstring;
  display_name : jsstring;
  profile_email : option jsstring;
  profile_followers_total : option Z;
  profile_images : option (list jsstring)
}.

(** [axios.get(`${SPOTIFY_API_BASE}/me`, { headers })] *)
Record ProfileRequest := mkProfileRequest {
  profile_url : jsstring;
  profile_Authorization : jsstring
}.

(** A request the callback sends out. *)
Inductive Call :=
| TokenCall (rq : TokenRequest)
| ProfileCall (rq : ProfileRequest).

(** What the callback leaves behind: the redirect it answers with, the
    store, [req.session], and the requests it sent, oldest first. *)
Record CallbackResult := mkCallbackResult {
  redirect : jsstring;
  store_after : MemStorage.t;
  session_after : option Session.t;
  calls : list Call
}.

(** The draft the callback passes to [createUser] (lines 154-163);
    [n || 0] on a count is [n] when it is defined and not [0], else [0]. *)
Definition profile_draft (profile : SpotifyProfile) (tokens : TokenResponse)
    (tokenExpiry' : Z) : InsertUser :=
  {| ins_spotifyId := profile_id profile;
     ins_displayName := display_name profile;
     ins_email := profile_email profile;
     ins_accessToken := access_token tokens;
     ins_refreshToken := refresh_token tokens;
     ins_tokenExpiry := tokenExpiry';
     ins_profileImage := images ← profile_images profile; head images;
     ins_followers := Some (default 0 (profile_followers_total profile)) |}.

(** Lines 166-174: bind the user to the session when both exist. *)
Definition bind_session (sess : option Session.t) (user : option User)
  : option Session.t :=
  match sess, user with
  | Some _, Some u =>
      Some {| Session.userId := Some (id u);
              Session.spotifyId := Some (spotifyId u);
              Session.authenticated := Some true |}
  | _, _ => sess
  end.

Section Callback.

(** The token endpoint and the profile endpoint: the data of the
    response, [None] when [axios] rejects. *)
Variable token_endpoint : TokenRequest -> option TokenResponse.
Variable profile_endpoint : ProfileRequest -> option SpotifyProfile.

(** The [catch] block: an error redirect, with nothing written. *)
Definition callback_failure (st : MemStorage.t) (req : Request)
    (sent : list Call) : CallbackResult :=
  {| redirect := lit "/?error=auth_failure";
     store_after := st;
     session_after := session req;
     calls := sent |}.

(** [GET /api/auth/callback]; [date_now] is [Date.now()] at line 142. *)
Definition auth_callback (env : Env) (st : MemStorage.t) (date_now : Z)
    (req : Request) : CallbackResult :=
  match callback_token_request env req with
  | inl error => callback_failure st req []
  | inr token_rq =>
      match token_endpoint token_rq with
      | None => callback_failure st req [TokenCall token_rq]
      | Some tokens =>
          let profile_rq :=
            {| profile_url := SPOTIFY_API_BASE ++ lit "/me";
               profile_Authorization :=
                 lit "Bearer " ++ access_token tokens |} in
          match profile_endpoint profile_rq with
          | None =>
              callback_failure st req
                [TokenCall token_rq; ProfileCall profile_rq]
          | Some profile =>
              let user :=
                MemStorage.getUserBySpotifyId st (profile_id profile) in
              let tokenExpiry' := date_now `div` 1000 + expires_in tokens in
              let '(user', st') :=
                match user with
                | Some u =>
                    MemStorage.updateUserToken st (id u)
                      (access_token tokens) (refresh_token tokens)
                      tokenExpiry'
                | None =>
                    let '(u, st') :=
                      MemStorage.createUser st
                        (profile_draft profile tokens tokenExpiry') in
                    (Some u, st')
                end in
              {| redirect := lit "/";
                 store_after := st';
                 session_after := bind_session (session req) user';
                 calls := [TokenCall token_rq; ProfileCall profile_rq] |}
          end
      end
  end.

End Callback.

(** Sample upstream answers for the callback: a token valid for an
    hour, and Alice's profile with two images and no follower count. *)
Definition tokens_fresh : TokenResponse :=
  {| access_token := lit "BQD-new";
     refresh_token := lit "AQC-new";
     expires_in := 3600 |}.

Definition profile_alice : SpotifyProfile :=
  {| profile_id := lit "alice";
     display_name := lit "Alice A.";
     profile_email := Some (lit "alice@example.com");
     profile_followers_total := None;
     profile_images := Some [lit "https://i.scdn.co/a"; lit "https://i.scdn.co/b"] |}.

Definition token_endpoint_ok : TokenRequest -> option TokenResponse :=
  fun _ => Some tokens_fresh.
Definition profile_endpoint_ok : ProfileRequest -> option SpotifyProfile :=
  fun _ => Some profile_alice.

(** The callback request of a browser that holds a fresh session. *)
Definition request_callback_session : Request :=
  {| session := Some session_anonymous;
     query := {[ lit "code" := QString (lit "abc") ]};
     headers_host := Some (lit "localhost:5000") |}.

(** An environment without a domain list. *)
Definition env_local : Env :=
  {| SPOTIFY_CLIENT_ID := Some (lit "client");
     SPOTIFY_CLIENT_SECRET := Some (lit "secret");
     REPLIT_DOMAINS := None;
     NODE_ENV := None |}.

(** ** The store *)

Section StoreFacts.

Import MemStorage.

Lemma consistent_new : consistent new.
Proof.
  split; simpl; [lia | |]; intros ? ? H; by rewrite lookup_empty in H.
Qed.

Lemma consistent_createUser s d :
  consistent s -> consistent (snd (createUser s d)).
Proof.
  intros [Hc Hu Hi]. split; simpl.
  - lia.
  - intros i u. rewrite lookup_insert. case_decide as E.
    + intros [= <-]. simpl. lia.
    + intros H. destruct (Hu _ _ H). lia.
  - intros sid i. rewrite lookup_insert. case_decide as E.
    + intros [= <-]. split; [lia|]. rewrite lookup_insert_eq. eauto.
    + intros H. destruct (Hi _ _ H) as [Hr (u & Hl & Hs)].
      split; [lia|]. exists u. by rewrite lookup_insert_ne; [|lia].
Qed.

Lemma consistent_updateUserToken s i a r e :
  consistent s -> consistent (snd (updateUserToken s i a r e)).
Proof.
  intros C. unfold updateUserToken.
  destruct (users s !! i) as [u|] eqn:Hl; [|done].
  destruct C as [Hc Hu Hi]. split; simpl.
  - done.
  - intros j v. rewrite lookup_insert. case_decide as E.
    + intros [= <-]. simpl. subst j. apply (Hu _ _ Hl).
    + apply Hu.
  - intros sid j H. destruct (Hi _ _ H) as [Hr (v & Hv & Hs)].
    split; [done|]. rewrite lookup_insert. case_decide as E.
    + subst j. rewrite Hl in Hv. injection Hv as <-. eauto.
    + eauto.
Qed.

Lemma reachable_consistent s : reachable s -> consistent s.
Proof.
  induction 1 as [|s o _ IH]; [apply consistent_new|].
  destruct o; simpl; try assumption.
  - by apply consistent_createUser.
  - by apply consistent_updateUserToken.
Qed.

Lemma currentId_step s o : currentId s <= currentId (step s o).
Proof.
  destruct o as [| |d|i a r e]; simpl; try lia.
  unfold updateUserToken. destruct (users s !! i); simpl; lia.
Qed.

Lemma created_ids_lower_bound os : forall s i,
  i ∈ created_ids s os -> currentId s <= i.
Proof.
  induction os as [|o os IH]; simpl; [by intros ? ? ?%elem_of_nil|].
  intros s i [Hin|Hin]%elem_of_app.
  - destruct o; simpl in Hin; try by apply elem_of_nil in Hin.
    apply list_elem_of_singleton in Hin as ->. simpl. lia.
  - pose proof (currentId_step s o). specialize (IH _ _ Hin). lia.
Qed.

Lemma currentId_run os : forall s, currentId s <= currentId (run s os).
Proof.
  unfold run. induction os as [|o os IH]; intros s; simpl; [lia|].
  pose proof (currentId_step s o). specialize (IH (step s o)). lia.
Qed.

Lemma created_ids_below_counter os : forall s i,
  i ∈ created_ids s os -> i < currentId (run s os).
Proof.
  induction os as [|o os IH]; simpl; [by intros ? ? ?%elem_of_nil|].
  intros s i [Hin|Hin]%elem_of_app.
  - destruct o; simpl in Hin; try by apply elem_of_nil in Hin.
    apply list_elem_of_singleton in Hin as ->.
    pose proof (currentId_run os (step s (CreateUser d))) as H.
    unfold run in *. simpl in *. lia.
  - unfold run. simpl. by apply IH.
Qed.

Lemma created_ids_sorted os : forall s,
  StronglySorted Z.lt (created_ids s os).
Proof.
  induction os as [|o os IH]; intros s; simpl; [constructor|].
  destruct o as [| |d|i a r e]; simpl; try apply IH.
  constructor; [apply IH|]. apply Forall_forall. intros j Hj.
  apply created_ids_lower_bound in Hj. simpl in Hj. lia.
Qed.

End StoreFacts.

Section StoreClaims.

Import MemStorage.

Lemma StronglySorted_lt_NoDup (l : list Z) :
  StronglySorted Z.lt l -> NoDup l.
Proof.
  induction 1 as [|x l _ IH Hx]; constructor; [|done].
  intros Hin. rewrite Forall_forall in Hx. specialize (Hx _ Hin). lia.
Qed.

(** C5. For a record present under [i], [updateUserToken] returns and
    stores a record whose access token, refresh token and expiry are the
    arguments and whose id, external identity, display name, email,
    profile image and follower count are those of the record before the
    call; every other record, the index and the counter are untouched. *)
Theorem updateUserToken_replaces_only_tokens s i a r e u :
  getUser s i = Some u ->
  let '(res, s') := updateUserToken s i a r e in
  exists u',
    res = Some u' /\ getUser s' i = Some u' /\
    accessToken u' = a /\ refreshToken u' = r /\ tokenExpiry u' = e /\
    id u' = id u /\ spotifyId u' = spotifyId u /\
    displayName u' = displayName u /\ email u' = email u /\
    profileImage u' = profileImage u /\ followers u' = followers u /\
    (forall j, j <> i -> getUser s' j = getUser s j) /\
    spotifyIdToUserId s' = spotifyIdToUserId s /\
    currentId s' = currentId s.
Proof.
  unfold getUser, updateUserToken. intros ->.
  eexists. split; [reflexivity|]. simpl.
  rewrite lookup_insert_eq. repeat split.
  intros j Hj. by rewrite lookup_insert_ne.
Qed.

Lemma updateUserToken_replaces_only_tokens_witness :
  exists u, getUser store_alice 1 = Some u /\
  let '(res, s') := updateUserToken store_alice 1 (lit "BQD-new") (lit "AQC-new") 3700 in
  exists u',
    res = Some u' /\ getUser s' 1 = Some u' /\
    accessToken u' = lit "BQD-new" /\ refreshToken u' = lit "AQC-new" /\
    tokenExpiry u' = 3700 /\
    id u' = id u /\ spotifyId u' = spotifyId u /\
    displayName u' = displayName u /\ email u' = email u /\
    profileImage u' = profileImage u /\ followers u' = followers u /\
    (forall j, j <> 1 -> getUser s' j = getUser store_alice j) /\
    spotifyIdToUserId s' = spotifyIdToUserId store_alice /\
    currentId s' = currentId store_alice.
Proof.
  exists (fst (createUser new alice)). split; [reflexivity|].
  apply (updateUserToken_replaces_only_tokens store_alice 1
           (lit "BQD-new") (lit "AQC-new") 3700 (fst (createUser new alice))).
  reflexivity.
Defined.

(** C6. On a reachable store, [createUser] followed by
    [getUserBySpotifyId] at the draft's external identity returns a
    record whose id is the one [createUser] assigned (it is the created
    record itself), whether or not the identity was indexed before. *)
Theorem createUser_then_getUserBySpotifyId s d :
  reachable s ->
  let '(u, s') := createUser s d in
  exists r, getUserBySpotifyId s' (ins_spotifyId d) = Some r /\
            id r = id u /\ r = u.
Proof.
  intros [Hc _ _]%reachable_consistent. simpl.
  eexists. unfold getUserBySpotifyId. simpl.
  rewrite lookup_insert_eq.
  destruct (Z.eqb_spec (currentId s) 0) as [E|_]; [lia|].
  rewrite lookup_insert_eq. done.
Qed.

Lemma createUser_then_getUserBySpotifyId_witness :
  let '(u, s') := createUser store_alice alice in
  exists r, getUserBySpotifyId s' (ins_spotifyId alice) = Some r /\
            id r = id u /\ r = u.
Proof.
  apply (createUser_then_getUserBySpotifyId store_alice alice).
  exact (reachable_step new (CreateUser alice) reachable_new).
Defined.

(** C7. Along any sequence of store calls, on a store whose counter
    stays among the integers a number holds exactly (at least [-2^53]
    before the calls and at most [2^53] after them), the ids that the
    [createUser] calls return are strictly increasing in call order;
    hence no id is returned twice; and every one of them is below
    [2^53]. *)
Theorem created_ids_strictly_increasing s os :
  - 2 ^ 53 <= currentId s -> currentId (run s os) <= 2 ^ 53 ->
  StronglySorted Z.lt (created_ids s os) /\ NoDup (created_ids s os) /\
  Forall (fun i => - 2 ^ 53 <= i < 2 ^ 53) (created_ids s os).
Proof.
  intros Hlo Hhi. pose proof (created_ids_sorted os s) as H.
  split; [done|]. split; [by apply StronglySorted_lt_NoDup|].
  apply Forall_forall. intros i Hi.
  pose proof (created_ids_lower_bound _ _ _ Hi).
  pose proof (created_ids_below_counter _ _ _ Hi). lia.
Qed.

Lemma created_ids_strictly_increasing_witness :
  StronglySorted Z.lt
    (created_ids new
       [CreateUser alice; UpdateUserToken 1 (lit "BQD-new") (lit "AQC-new") 3700;
        CreateUser alice]) /\
  NoDup
    (created_ids new
       [CreateUser alice; UpdateUserToken 1 (lit "BQD-new") (lit "AQC-new") 3700;
        CreateUser alice]) /\
  Forall (fun i => - 2 ^ 53 <= i < 2 ^ 53)
    (created_ids new
       [CreateUser alice; UpdateUserToken 1 (lit "BQD-new") (lit "AQC-new") 3700;
        CreateUser alice]).
Proof.
  apply (created_ids_strictly_increasing new
           [CreateUser alice;
            UpdateUserToken 1 (lit "BQD-new") (lit "AQC-new") 3700;
            CreateUser alice]).
  - vm_compute. discriminate.
  - vm_compute. discriminate.
Defined.

(** C9. On a reachable store where an external identity is indexed to a
    record [old], [createUser] with a draft of the same identity returns
    a record under the counter's value, a key not in use and different
    from [old]'s id; afterwards the index resolves the identity to the
    new record and [getUser] at [old]'s id still returns [old]. *)
Theorem createUser_duplicate_spotifyId s d old :
  reachable s ->
  getUserBySpotifyId s (ins_spotifyId d) = Some old ->
  let '(u, s') := createUser s d in
  id u = currentId s /\ getUser s (id u) = None /\ id u <> id old /\
  getUser s' (id u) = Some u /\
  getUserBySpotifyId s' (ins_spotifyId d) = Some u /\
  getUser s (id old) = Some old /\
  getUser s' (id old) = Some old.
Proof.
  intros [Hc Hu Hi]%reachable_consistent. unfold getUserBySpotifyId, getUser.
  destruct (spotifyIdToUserId s !! ins_spotifyId d) as [k|] eqn:Hk; [|done].
  destruct (Z.eqb_spec k 0) as [|_]; [done|]. intros Hold.
  destruct (Hu _ _ Hold) as [Hid Hr]. simpl.
  assert (users s !! currentId s = None) as Hfresh.
  { destruct (users s !! currentId s) as [v|] eqn:Hv; [|done].
    destruct (Hu _ _ Hv). lia. }
  rewrite !lookup_insert_eq.
  destruct (Z.eqb_spec (currentId s) 0) as [|_]; [lia|].
  rewrite Hid, lookup_insert_ne by lia.
  repeat split; try done. lia.
Qed.

Lemma createUser_duplicate_spotifyId_witness :
  exists old, getUserBySpotifyId store_alice (ins_spotifyId alice) = Some old /\
  let '(u, s') := createUser store_alice alice in
  id u = currentId store_alice /\ getUser store_alice (id u) = None /\
  id u <> id old /\
  getUser s' (id u) = Some u /\
  getUserBySpotifyId s' (ins_spotifyId alice) = Some u /\
  getUser store_alice (id old) = Some old /\
  getUser s' (id old) = Some old.
Proof.
  exists (fst (createUser new alice)). split; [reflexivity|].
  apply (createUser_duplicate_spotifyId store_alice alice
           (fst (createUser new alice))).
  - exact (reachable_step new (CreateUser alice) reachable_new).
  - reflexivity.
Defined.

End StoreClaims.

(** ** The redirect URI *)

Lemma split_from_nonempty sep s : forall cur, split_from sep cur s <> [].
Proof. induction s as [|c s IH]; intros cur; simpl; [done|]. by case (c =? sep)%N. Qed.

(** The derivation never throws: [split] returns at least one segment. *)
Lemma login_redirectUri_returns env req :
  exists uri, login_redirectUri env req = inr uri.
Proof.
  unfold login_redirectUri. destruct (truthy_string _); [|eauto].
  unfold split.
  destruct (split_from 44 [] (default [] (REPLIT_DOMAINS env))) eqn:E; [|simpl; eauto].
  by apply split_from_nonempty in E.
Qed.

(** C4. Given the same domain list and the same host header (whatever
    the rest of the environment, the production flag included), the
    login route and the callback route derive the same redirect URI,
    and the [redirect_uri] the callback posts to the token endpoint is
    the one the login route put in the authorization URL. *)
Theorem redirectUri_login_callback_agree env1 env2 req1 req2 :
  REPLIT_DOMAINS env1 = REPLIT_DOMAINS env2 ->
  headers_host req1 = headers_host req2 ->
  login_redirectUri env1 req1 = callback_redirectUri env2 req2 /\
  forall u t,
    auth_login env1 req1 = LoginUrl u ->
    callback_token_request env2 req2 = inr t ->
    (lit "redirect_uri", form_redirect_uri t) ∈ searchParams u.
Proof.
  intros Hd Hh.
  assert (login_redirectUri env1 req1 = callback_redirectUri env2 req2) as E.
  { unfold login_redirectUri, callback_redirectUri. by rewrite Hd, Hh. }
  split; [done|]. intros u t. unfold auth_login, callback_token_request.
  rewrite E. destruct (SPOTIFY_CLIENT_ID env1) as [[|c cs]|]; try done.
  destruct (_ || _); [done|].
  destruct (callback_redirectUri env2 req2) as [e|uri]; [done|].
  destruct (from_option to_string _ _) as [e|code_text]; [done|].
  intros [= <-] [= <-]. simpl. set_solver.
Qed.

Lemma redirectUri_login_callback_agree_witness :
  login_redirectUri env_dev request_login
  = callback_redirectUri env_production request_callback /\
  forall u t,
    auth_login env_dev request_login = LoginUrl u ->
    callback_token_request env_production request_callback = inr t ->
    (lit "redirect_uri", form_redirect_uri t) ∈ searchParams u.
Proof.
  apply (redirectUri_login_callback_agree
           env_dev env_production request_login request_callback);
    reflexivity.
Defined.

(** ** Sessions and the proxy routes *)

Lemma timeRangeSchema_parse_member tr :
  tr ∈ timeRangeSchema -> timeRangeSchema_parse (QString tr) = ret tr.
Proof. intros H. simpl. by rewrite bool_decide_eq_true_2. Qed.

Lemma timeRangeSchema_parse_reject v :
  (forall tr, tr ∈ timeRangeSchema -> v <> QString tr) ->
  timeRangeSchema_parse v = throw ZodError.
Proof.
  intros H. destruct v as [s| |]; simpl; try done.
  case_bool_decide as E; [|done]. by destruct (H _ E).
Qed.

Lemma timeRangeSchema_parse_inv v r tr :
  timeRangeSchema_parse v = (inr r, tr) ->
  v = QString r /\ r ∈ timeRangeSchema /\ tr = [].
Proof.
  destruct v as [s| |]; simpl; try done.
  case_bool_decide as E; [|done]. by intros [= <- <-].
Qed.

Lemma timeRangeSchema_parse_pure v r tr :
  timeRangeSchema_parse v = (r, tr) -> tr = [].
Proof.
  destruct v as [s| |]; simpl; try by intros [= <- <-].
  case_bool_decide; by intros [= <- <-].
Qed.

Lemma qor_default d v : qfalsy v = true -> qor v d = d.
Proof. by destruct v as [[[|]| |]|]. Qed.

Lemma qor_value d v : qfalsy (Some v) = false -> qor (Some v) d = v.
Proof. by destruct v as [[|]| |]. Qed.

Lemma medium_term_member : lit "medium_term" ∈ timeRangeSchema.
Proof. unfold timeRangeSchema. set_solver. Qed.

Lemma empty_not_member : [] ∉ timeRangeSchema.
Proof. apply (bool_decide_eq_false_1 _). by vm_compute. Qed.

Lemma session_userId_guard req :
  no_valid_session req = true -> session_userId req = None.
Proof. unfold session_userId. by intros ->. Qed.

Lemma session_userId_bound req s uid :
  session req = Some s -> Session.authenticated s = Some true ->
  Session.userId s = Some uid -> uid <> 0 ->
  session_userId req = Some uid.
Proof.
  intros Hs Ha Hu Hz. unfold session_userId, no_valid_session.
  rewrite Hs, Ha, Hu. simpl. by destruct (Z.eqb_spec uid 0).
Qed.

(** C10. For a session with the authenticated flag and a user id that
    resolves to a stored user: when the stored expiry is at most the
    current second (equality included) [/api/auth/me] answers 401 with
    [{authenticated: false, reason: "token_expired"}]; when it is
    strictly greater it answers with the user payload. *)
Theorem auth_me_expiry_inclusive {Json} st date_now req s uid user :
  session req = Some s -> Session.authenticated s = Some true ->
  Session.userId s = Some uid -> uid <> 0 ->
  MemStorage.getUser st uid = Some user ->
  let now := date_now `div` 1000 in
  (tokenExpiry user <= now ->
   auth_me (Json:=Json) st date_now req =
     (res_status_json 401 (NotAuthenticated (Some (lit "token_expired"))),
      [])) /\
  (now < tokenExpiry user ->
   auth_me (Json:=Json) st date_now req =
     (res_json
        (Authenticated
           {| me_id := id user;
              me_spotifyId := spotifyId user;
              me_displayName := displayName user;
              me_email := email user;
              me_profileImage := profileImage user;
              me_followers := followers user |}), [])).
Proof.
  intros Hs Ha Hu Hz Hg now. unfold auth_me.
  rewrite (session_userId_bound _ _ _ Hs Ha Hu Hz), Hg. fold now.
  destruct (Z.leb_spec (tokenExpiry user) now); split; intros; (done || lia).
Qed.

Lemma auth_me_expiry_inclusive_witness :
  auth_me (Json:=unit) store_alice 100000 request_plain =
    (res_status_json 401 (NotAuthenticated (Some (lit "token_expired"))), [])
  /\ status (fst (auth_me (Json:=unit) store_alice 99999 request_plain)) = 200.
Proof.
  split.
  - apply (auth_me_expiry_inclusive (Json:=unit) store_alice 100000
             request_plain session_alice 1
             (fst (MemStorage.createUser MemStorage.new alice)));
      (reflexivity || lia || (vm_compute; discriminate)).
  - rewrite (proj2 (auth_me_expiry_inclusive (Json:=unit) store_alice 99999
             request_plain session_alice 1
             (fst (MemStorage.createUser MemStorage.new alice))
             eq_refl eq_refl eq_refl ltac:(lia) eq_refl));
      [reflexivity | vm_compute; reflexivity].
Defined.

Section ProxyFacts.

Context {Json : Type} (upstream : UpstreamRequest -> option Json).

Lemma proxy_outline_correct e st req :
  proxy upstream e st req = proxy_outline upstream e st req.
Proof.
  unfold proxy_outline, validated_time_range.
  destruct e; unfold proxy, top_artists, top_tracks, recently_played;
    try (destruct (timeRangeSchema_parse _) as [[err|tr] t] eqn:Hp;
         apply timeRangeSchema_parse_pure in Hp as ->; [done|]);
    unfold try_catch, bind, ret; simpl;
    (destruct (session_userId req) as [uid|]; [|done]);
    (destruct (MemStorage.getUser st uid) as [user|]; [|done]);
    unfold lift;
    (destruct (to_string _) as [err'|limit_text]; [done|]);
    unfold axios_get; simpl;
    by destruct (upstream _).
Qed.

Lemma validated_time_range_member e req tr :
  validated_time_range e req = inr (Some tr) -> tr ∈ timeRangeSchema.
Proof.
  unfold validated_time_range. destruct e; try done;
    (destruct (timeRangeSchema_parse _) as [[err|r] t] eqn:Hp; [done|]);
    apply timeRangeSchema_parse_inv in Hp as (_ & Hin & _);
    by intros [= <-].
Qed.

Lemma validated_time_range_default e req :
  e <> RecentlyPlayed -> qfalsy (query req !! lit "time_range") = true ->
  validated_time_range e req = inr (Some (lit "medium_term")).
Proof.
  intros He Hq. unfold validated_time_range.
  rewrite (qor_default _ _ Hq), (timeRangeSchema_parse_member _ medium_term_member).
  by destruct e.
Qed.

Lemma validated_time_range_accept e req tr :
  e <> RecentlyPlayed -> query req !! lit "time_range" = Some (QString tr) ->
  tr ∈ timeRangeSchema ->
  validated_time_range e req = inr (Some tr).
Proof.
  intros He Hq Hin. unfold validated_time_range. rewrite Hq.
  assert (tr <> []) as Hne by (intros ->; by apply empty_not_member).
  rewrite qor_value by (by destruct tr).
  rewrite (timeRangeSchema_parse_member _ Hin). by destruct e.
Qed.

Lemma validated_time_range_reject e req v :
  e <> RecentlyPlayed -> query req !! lit "time_range" = Some v ->
  v <> QString [] -> (forall tr, tr ∈ timeRangeSchema -> v <> QString tr) ->
  validated_time_range e req = inl ZodError.
Proof.
  intros He Hq Hne Hout. unfold validated_time_range. rewrite Hq.
  rewrite qor_value by (by destruct v as [[|]| |]).
  rewrite (timeRangeSchema_parse_reject _ Hout). by destruct e.
Qed.

End ProxyFacts.

Section ProxyClaims.

Context {Json : Type} (upstream : UpstreamRequest -> option Json).

(** C2, as amended. When the session guard fails (no session, no
    authenticated flag, or no user id), no proxy route issues an
    upstream request; and the response is 401 [Unauthorized] on the
    recently-played route, and on the two top routes whenever
    [time_range] is absent, empty or one of the three ranges. *)
Theorem unauthenticated_proxy_makes_no_call e st req :
  no_valid_session req = true ->
  snd (proxy upstream e st req) = [] /\
  (e = RecentlyPlayed \/
   qfalsy (query req !! lit "time_range") = true \/
   (exists tr, query req !! lit "time_range" = Some (QString tr) /\
               tr ∈ timeRangeSchema) ->
   fst (proxy upstream e st req) =
     res_status_json 401 (Message (lit "Unauthorized"))).
Proof.
  intros Hg%session_userId_guard. rewrite proxy_outline_correct.
  unfold proxy_outline. rewrite Hg. split.
  - by destruct (validated_time_range e req).
  - intros [->|H]; [done|].
    assert (e = RecentlyPlayed \/ e <> RecentlyPlayed) as [->|He]
      by (destruct e; auto); [done|].
    destruct H as [Hq|(tr & Hq & Hin)].
    + by rewrite validated_time_range_default.
    + by rewrite (validated_time_range_accept e req tr).
Qed.

(** C3, as amended. On the two top routes a [time_range] that is present,
    not empty and not one of the three ranges is answered with status
    500 and [{message: "Server error"}] and no upstream request; this
    is the very response the route gives when its upstream request
    fails. *)
Theorem invalid_time_range_is_server_error e st req v :
  e <> RecentlyPlayed ->
  query req !! lit "time_range" = Some v ->
  v <> QString [] ->
  (forall tr, tr ∈ timeRangeSchema -> v <> QString tr) ->
  proxy upstream e st req =
    (res_status_json 500 (Message (lit "Server error")), []) /\
  forall st' req' rq,
    rq ∈ snd (proxy upstream e st' req') -> upstream rq = None ->
    fst (proxy upstream e st' req') =
      res_status_json 500 (Message (lit "Server error")).
Proof.
  intros He Hq Hne Hout. split.
  - rewrite proxy_outline_correct. unfold proxy_outline.
    by rewrite (validated_time_range_reject e req v).
  - intros st' req' rq. rewrite proxy_outline_correct. unfold proxy_outline.
    destruct (validated_time_range e req'); [done|].
    destruct (session_userId req'); [|by intros ?%elem_of_nil].
    destruct (MemStorage.getUser st' _); [|by intros ?%elem_of_nil].
    destruct (to_string _); [by intros ?%elem_of_nil|].
    simpl. intros ->%list_elem_of_singleton ->. done.
Qed.

(** C8, as amended. On the two top routes every request sent upstream
    carries a [time_range] of the enumeration; when the parameter is
    absent or empty it is [medium_term], and a valid session of a known
    user then does send the request, provided [limit] can be turned
    into a string; when the parameter is present, not empty and outside
    the enumeration, nothing is sent upstream. *)
Theorem forwarded_time_range_is_valid e st req :
  e <> RecentlyPlayed ->
  (forall rq, rq ∈ snd (proxy upstream e st req) ->
     exists tr, params_time_range rq = Some tr /\ tr ∈ timeRangeSchema) /\
  (qfalsy (query req !! lit "time_range") = true ->
     (forall rq, rq ∈ snd (proxy upstream e st req) ->
        params_time_range rq = Some (lit "medium_term")) /\
     (forall uid user limit_text,
        session_userId req = Some uid ->
        MemStorage.getUser st uid = Some user ->
        to_string (qor (query req !! lit "limit") (QString (lit "20")))
        = inr limit_text ->
        exists rq, snd (proxy upstream e st req) = [rq])) /\
  (forall v,
     query req !! lit "time_range" = Some v -> v <> QString [] ->
     (forall tr, tr ∈ timeRangeSchema -> v <> QString tr) ->
     snd (proxy upstream e st req) = []).
Proof.
  intros He. rewrite proxy_outline_correct. unfold proxy_outline.
  split; [|split].
  - destruct (validated_time_range e req) as [err|[tr|]] eqn:Hv;
      [by intros ? ?%elem_of_nil | |].
    2:{ exfalso. unfold validated_time_range in Hv.
        destruct e; try done;
          by destruct (timeRangeSchema_parse _) as [[|] ?]. }
    apply validated_time_range_member in Hv.
    destruct (session_userId req); [|by intros ? ?%elem_of_nil].
    destruct (MemStorage.getUser st _); [|by intros ? ?%elem_of_nil].
    destruct (to_string _); [by intros ? ?%elem_of_nil|].
    simpl. intros rq ->%list_elem_of_singleton. eauto.
  - intros Hq. rewrite (validated_time_range_default e req He Hq). split.
    + destruct (session_userId req); [|by intros ? ?%elem_of_nil].
      destruct (MemStorage.getUser st _); [|by intros ? ?%elem_of_nil].
      destruct (to_string _); [by intros ? ?%elem_of_nil|].
      simpl. by intros rq ->%list_elem_of_singleton.
    + intros uid user limit_text -> -> ->. simpl. eauto.
  - intros v Hq Hne Hout.
    by rewrite (validated_time_range_reject e req v).
Qed.

End ProxyClaims.

(** C2, counterexample. An anonymous browser asking for
    [/api/me/top/artists?time_range=bogus] is answered 500, not 401:
    the time range is validated before the session is looked at. *)
Lemma unauthenticated_bad_time_range_gets_500 :
  no_valid_session request_anonymous_bogus = true /\
  proxy upstream_ok TopArtists MemStorage.new request_anonymous_bogus =
    (res_status_json 500 (Message (lit "Server error")), []) /\
  status (fst (proxy upstream_ok TopArtists MemStorage.new
                 request_anonymous_bogus)) <> 401.
Proof. by vm_compute. Qed.

Lemma unauthenticated_proxy_makes_no_call_witness :
  snd (proxy upstream_ok TopArtists MemStorage.new request_anonymous) = [] /\
  fst (proxy upstream_ok TopArtists MemStorage.new request_anonymous) =
    res_status_json 401 (Message (lit "Unauthorized")).
Proof.
  destruct (unauthenticated_proxy_makes_no_call upstream_ok TopArtists
              MemStorage.new request_anonymous eq_refl) as [Ht Hr].
  split; [exact Ht|]. apply Hr. right. left. reflexivity.
Defined.

(** C3, counterexample. Alice's [/api/me/top/artists?time_range=bogus]
    is answered exactly as her well-formed request is when the upstream
    API is down: status 500, [{message: "Server error"}]. *)
Lemma invalid_time_range_same_as_upstream_failure :
  query request_bogus !! lit "time_range" = Some (QString (lit "bogus")) /\
  (lit "bogus" ∉ timeRangeSchema) /\
  fst (proxy upstream_ok TopArtists store_alice request_bogus) =
    res_status_json 500 (Message (lit "Server error")) /\
  fst (proxy upstream_ok TopArtists store_alice request_bogus) =
    fst (proxy upstream_down TopArtists store_alice request_plain).
Proof.
  split; [by vm_compute|]. split; [|by vm_compute].
  apply (bool_decide_eq_false_1 _). by vm_compute.
Qed.

Lemma invalid_time_range_is_server_error_witness :
  proxy upstream_ok TopTracks store_alice request_bogus =
    (res_status_json 500 (Message (lit "Server error")), []).
Proof.
  apply (invalid_time_range_is_server_error upstream_ok TopTracks
           store_alice request_bogus (QString (lit "bogus"))).
  - discriminate.
  - reflexivity.
  - discriminate.
  - intros tr Hin [= <-]. revert Hin.
    apply (bool_decide_eq_false_1 _). reflexivity.
Defined.

(** C8, counterexample. Alice's [/api/me/top/artists?time_range=]
    carries a value outside the enumeration, the empty string, and is
    not rejected: it is sent upstream as [medium_term]. *)
Lemma empty_time_range_is_forwarded :
  query request_empty_range !! lit "time_range" = Some (QString []) /\
  ([] ∉ timeRangeSchema) /\
  exists rq,
    snd (proxy upstream_ok TopArtists store_alice request_empty_range) = [rq]
    /\ params_time_range rq = Some (lit "medium_term").
Proof.
  split; [by vm_compute|]. split; [apply empty_not_member|].
  eexists. split; by vm_compute.
Qed.

Lemma forwarded_time_range_is_valid_witness :
  (forall rq,
     rq ∈ snd (proxy upstream_ok TopArtists store_alice request_plain) ->
     exists tr, params_time_range rq = Some tr /\ tr ∈ timeRangeSchema) /\
  exists rq,
    snd (proxy upstream_ok TopArtists store_alice request_plain) = [rq].
Proof.
  destruct (forwarded_time_range_is_valid upstream_ok TopArtists
              store_alice request_plain ltac:(discriminate))
    as (Hall & Hdef & _).
  split; [exact Hall|].
  destruct (Hdef eq_refl) as [_ Hsend].
  apply (Hsend 1 (fst (MemStorage.createUser MemStorage.new alice))
           (lit "20"));
    reflexivity.
Defined.

(** C1, the routes at an expired token. Alice's token expired at second
    100 and it is second 200: [/api/auth/me] answers 401 with reason
    [token_expired], while each proxy route sends her request upstream
    under the expired bearer token and relays the answer. *)
Theorem expired_token_is_forwarded :
  tokenExpiry <$> MemStorage.getUser store_alice 1 = Some 100 /\
  auth_me (Json:=unit) store_alice 200000 request_plain =
    (res_status_json 401 (NotAuthenticated (Some (lit "token_expired"))), [])
  /\
  forall e, exists rq,
    proxy upstream_ok e store_alice request_plain =
      (res_json (UpstreamData tt), [rq]) /\
    headers_Authorization rq = lit "Bearer BQD-old".
Proof.
  split; [by vm_compute|]. split; [by vm_compute|].
  intros []; eexists; (split; [reflexivity|]); by vm_compute.
Qed.

(** ** More on the store *)

Section StoreExtras.

Import MemStorage.

Lemma reachable_dense s :
  reachable s -> forall i, 1 <= i < currentId s -> is_Some (users s !! i).
Proof.
  induction 1 as [|s o _ IH]; simpl; [intros; lia|].
  destruct o as [| |d|k a r e]; simpl; try done.
  - intros i Hi. rewrite lookup_insert. case_decide; [done|].
    apply IH. lia.
  - unfold updateUserToken.
    destruct (users s !! k) as [u|] eqn:Hk; simpl; [|done].
    intros i Hi. rewrite lookup_insert. case_decide; [done|]. by apply IH.
Qed.

Lemma reachable_indexed s :
  reachable s ->
  forall j v, users s !! j = Some v ->
    exists k, spotifyIdToUserId s !! spotifyId v = Some k /\ j <= k.
Proof.
  induction 1 as [|s o Hs IH]; simpl.
  { intros j v H. by rewrite lookup_empty in H. }
  pose proof (reachable_consistent _ Hs) as [Hc Hu Hi].
  destruct o as [| |d|i a r e]; simpl; try done.
  - intros j v. rewrite lookup_insert. case_decide as E.
    + intros [= <-]. simpl. rewrite lookup_insert_eq. exists (currentId s).
      split; [done|lia].
    + intros Hv. destruct (Hu _ _ Hv) as [_ Hj].
      rewrite lookup_insert. case_decide.
      * eexists. split; [done|lia].
      * by apply IH.
  - unfold updateUserToken.
    destruct (users s !! i) as [u|] eqn:Hk; simpl; [|done].
    intros j v. rewrite lookup_insert. case_decide as E.
    + intros [= <-]. simpl. subst j. by apply IH.
    + apply IH.
Qed.

(** X1. On a reachable store the records live exactly under the ids
    [1 .. currentId - 1]: every id handed out so far still resolves, and
    no other number does. *)
Theorem getUser_defined_iff_handed_out s i :
  reachable s -> (is_Some (getUser s i) <-> 1 <= i < currentId s).
Proof.
  intros Hs. split.
  - intros [u Hu]. by apply (users_keys _ (reachable_consistent _ Hs)) in Hu as [_ ?].
  - by apply reachable_dense.
Qed.

Lemma getUser_defined_iff_handed_out_witness :
  is_Some (getUser store_alice 1) <-> 1 <= 1 < currentId store_alice.
Proof.
  apply (getUser_defined_iff_handed_out store_alice 1).
  exact (reachable_step new (CreateUser alice) reachable_new).
Defined.

(** X2. On a reachable store, [updateUserToken] at a number that was
    never handed out as an id returns [undefined] and changes nothing. *)
Theorem updateUserToken_unknown_id s i a r e :
  reachable s -> ~ (1 <= i < currentId s) ->
  updateUserToken s i a r e = (None, s).
Proof.
  intros Hs Hi. unfold updateUserToken.
  destruct (users s !! i) as [u|] eqn:Hu; [|done].
  destruct Hi. by apply (users_keys _ (reachable_consistent _ Hs)) in Hu as [_ ?].
Qed.

Lemma updateUserToken_unknown_id_witness :
  updateUserToken store_alice 2 (lit "BQD-new") (lit "AQC-new") 3700
  = (None, store_alice).
Proof.
  apply (updateUserToken_unknown_id store_alice 2).
  - exact (reachable_step new (CreateUser alice) reachable_new).
  - vm_compute. intros [_ H]. discriminate H.
Defined.

(** X3. On a reachable store, a record found by external identity
    carries that identity, has a non-zero id, and is the record
    [getUser] returns for its id. *)
Theorem getUserBySpotifyId_sound s sid u :
  reachable s -> getUserBySpotifyId s sid = Some u ->
  spotifyId u = sid /\ 1 <= id u /\ getUser s (id u) = Some u.
Proof.
  intros [Hc Hu Hi]%reachable_consistent. unfold getUserBySpotifyId, getUser.
  destruct (spotifyIdToUserId s !! sid) as [k|] eqn:Hk; [|done].
  destruct (Z.eqb_spec k 0); [done|]. intros Hl.
  destruct (Hi _ _ Hk) as [_ (v & Hv & Hs)].
  destruct (Hu _ _ Hl) as [-> ?].
  rewrite Hl in Hv. injection Hv as <-. split; [done|]. split; [lia|done].
Qed.

Lemma getUserBySpotifyId_sound_witness :
  spotifyId (fst (createUser new alice)) = lit "alice" /\
  1 <= id (fst (createUser new alice)) /\
  getUser store_alice (id (fst (createUser new alice)))
  = Some (fst (createUser new alice)).
Proof.
  apply (getUserBySpotifyId_sound store_alice (lit "alice")).
  - exact (reachable_step new (CreateUser alice) reachable_new).
  - reflexivity.
Defined.

(** X4. On a reachable store every stored record can be found by its
    external identity, and what is found is the newest record of that
    identity: no record carrying it has a greater id. *)
Theorem getUserBySpotifyId_newest s j v :
  reachable s -> getUser s j = Some v ->
  exists u, getUserBySpotifyId s (spotifyId v) = Some u /\
            spotifyId u = spotifyId v /\ j <= id u.
Proof.
  intros Hs Hv. pose proof (reachable_consistent _ Hs) as [Hc Hu Hi].
  destruct (reachable_indexed _ Hs _ _ Hv) as (k & Hk & Hle).
  destruct (Hi _ _ Hk) as [Hr (u & Hl & Hsid)].
  destruct (Hu _ _ Hl) as [Hid _].
  exists u. unfold getUserBySpotifyId. rewrite Hk.
  destruct (Z.eqb_spec k 0); [lia|]. split; [done|]. split; [done|lia].
Qed.

Lemma getUserBySpotifyId_newest_witness :
  exists u,
    getUserBySpotifyId (snd (createUser store_alice alice)) (lit "alice")
    = Some u /\
    spotifyId u = lit "alice" /\ 1 <= id u.
Proof.
  apply (getUserBySpotifyId_newest (snd (createUser store_alice alice)) 1
           (fst (createUser new alice))).
  - exact (reachable_step _ (CreateUser alice)
             (reachable_step new (CreateUser alice) reachable_new)).
  - reflexivity.
Defined.

End StoreExtras.

Section StoreComposition.

Import MemStorage.

(** X5. On a reachable store [createUser] writes one new key and one
    index entry: every record stored before is still returned by
    [getUser] under its id, and lookups by any other external identity
    answer as before. *)
Theorem createUser_preserves_others s d :
  reachable s ->
  let '(u, s') := createUser s d in
  (forall j v, getUser s j = Some v -> getUser s' j = Some v) /\
  (forall j, j <> id u -> getUser s' j = getUser s j) /\
  (forall sid, sid <> ins_spotifyId d ->
     getUserBySpotifyId s' sid = getUserBySpotifyId s sid).
Proof.
  intros [Hc Hu Hi]%reachable_consistent. simpl.
  unfold getUser, getUserBySpotifyId. simpl. split; [|split].
  - intros j v Hv. destruct (Hu _ _ Hv). by rewrite lookup_insert_ne by lia.
  - intros j Hj. by rewrite lookup_insert_ne.
  - intros sid Hsid. rewrite lookup_insert_ne by done.
    destruct (spotifyIdToUserId s !! sid) as [k|] eqn:Hk; [|done].
    destruct (Hi _ _ Hk) as [Hr _]. by rewrite lookup_insert_ne by lia.
Qed.

Lemma createUser_preserves_others_witness :
  let '(u, s') := createUser store_alice alice in
  (forall j v, getUser store_alice j = Some v -> getUser s' j = Some v) /\
  (forall j, j <> id u -> getUser s' j = getUser store_alice j) /\
  (forall sid, sid <> ins_spotifyId alice ->
     getUserBySpotifyId s' sid = getUserBySpotifyId store_alice sid).
Proof.
  apply (createUser_preserves_others store_alice alice).
  exact (reachable_step new (CreateUser alice) reachable_new).
Defined.

(** X6. On a reachable store, after [updateUserToken] at the id of a
    record found by external identity, the same lookup returns the
    updated record: the new tokens are what the next request reads. *)
Theorem updateUserToken_seen_by_spotifyId s sid u a r e :
  reachable s -> getUserBySpotifyId s sid = Some u ->
  let '(res, s') := updateUserToken s (id u) a r e in
  exists u',
    res = Some u' /\ getUserBySpotifyId s' sid = Some u' /\
    id u' = id u /\
    accessToken u' = a /\ refreshToken u' = r /\ tokenExpiry u' = e.
Proof.
  intros Hs Hf. pose proof (reachable_consistent _ Hs) as [Hc Hu Hi].
  revert Hf. unfold getUserBySpotifyId, updateUserToken.
  destruct (spotifyIdToUserId s !! sid) as [k|] eqn:Hk; [|done].
  destruct (Z.eqb_spec k 0); [done|]. intros Hl.
  destruct (Hu _ _ Hl) as [<- _]. rewrite Hl. simpl. rewrite Hk.
  destruct (Z.eqb_spec (id u) 0); [done|]. rewrite lookup_insert_eq.
  eexists. repeat split.
Qed.

Lemma updateUserToken_seen_by_spotifyId_witness :
  let '(res, s') :=
    updateUserToken store_alice (id (fst (createUser new alice)))
      (lit "BQD-new") (lit "AQC-new") 3700 in
  exists u',
    res = Some u' /\ getUserBySpotifyId s' (lit "alice") = Some u' /\
    id u' = id (fst (createUser new alice)) /\
    accessToken u' = lit "BQD-new" /\ refreshToken u' = lit "AQC-new" /\
    tokenExpiry u' = 3700.
Proof.
  apply (updateUserToken_seen_by_spotifyId store_alice (lit "alice")
           (fst (createUser new alice)) (lit "BQD-new") (lit "AQC-new") 3700).
  - exact (reachable_step new (CreateUser alice) reachable_new).
  - reflexivity.
Defined.

(** X7. Two [updateUserToken] calls at one id leave the store that the
    second call alone would leave, and return the same record: the last
    tokens written win and nothing of the first write remains. *)
Theorem updateUserToken_last_write_wins s i a1 r1 e1 a2 r2 e2 :
  updateUserToken (snd (updateUserToken s i a1 r1 e1)) i a2 r2 e2
  = updateUserToken s i a2 r2 e2.
Proof.
  unfold updateUserToken at 2 3.
  destruct (users s !! i) as [u|] eqn:Hu; simpl.
  - unfold updateUserToken. simpl. rewrite lookup_insert_eq. simpl.
    by rewrite insert_insert_eq.
  - unfold updateUserToken. by rewrite Hu.
Qed.

Lemma run_app s os1 os2 : run s (os1 ++ os2) = run (run s os1) os2.
Proof. apply foldl_app. Qed.

Lemma reachable_run s os : reachable s -> reachable (run s os).
Proof.
  revert s. induction os as [|o os IH]; intros s Hs; [done|].
  simpl. apply IH. by constructor.
Qed.

(** X8. On a reachable store no sequence of store calls removes a record
    or changes its id, external identity, display name, email, profile
    image or follower count: only its tokens and expiry can differ. *)
Theorem profile_fields_never_change s os i u :
  reachable s -> getUser s i = Some u ->
  exists u',
    getUser (run s os) i = Some u' /\
    id u' = id u /\ spotifyId u' = spotifyId u /\
    displayName u' = displayName u /\ email u' = email u /\
    profileImage u' = profileImage u /\ followers u' = followers u.
Proof.
  revert s u. induction os as [|o os IH]; intros s u Hs Hu.
  { exists u. by repeat split. }
  simpl.
  assert (exists v, getUser (step s o) i = Some v /\
            id v = id u /\ spotifyId v = spotifyId u /\
            displayName v = displayName u /\ email v = email u /\
            profileImage v = profileImage u /\ followers v = followers u)
    as (v & Hv & E1 & E2 & E3 & E4 & E5 & E6).
  { pose proof (reachable_consistent _ Hs) as [_ Hk _].
    destruct (Hk _ _ Hu) as [_ Hi].
    destruct o as [| |d|k a r e]; simpl; try by (exists u; repeat split).
    - exists u. unfold getUser in *. simpl.
      by rewrite lookup_insert_ne by lia.
    - unfold updateUserToken, getUser in *.
      destruct (users s !! k) as [w|] eqn:Hw; simpl;
        [|by (exists u; repeat split)].
      rewrite lookup_insert. case_decide as E.
      + subst k. rewrite Hu in Hw. injection Hw as <-.
        eexists. repeat split.
      + by (exists u; repeat split). }
  destruct (IH (step s o) v (reachable_step _ _ Hs) Hv)
    as (u' & Hu' & F1 & F2 & F3 & F4 & F5 & F6).
  exists u'. repeat split; congruence.
Qed.

Lemma profile_fields_never_change_witness :
  exists u',
    getUser (run store_alice
               [UpdateUserToken 1 (lit "BQD-new") (lit "AQC-new") 3700;
                CreateUser alice]) 1 = Some u' /\
    id u' = 1 /\ spotifyId u' = lit "alice" /\
    displayName u' = lit "Alice" /\ email u' = None /\
    profileImage u' = None /\ followers u' = Some 0.
Proof.
  apply (profile_fields_never_change store_alice
           [UpdateUserToken 1 (lit "BQD-new") (lit "AQC-new") 3700;
            CreateUser alice] 1 (fst (createUser new alice))).
  - exact (reachable_step new (CreateUser alice) reachable_new).
  - reflexivity.
Defined.

End StoreComposition.

(** ** More on the redirect URI and the login route *)

Lemma split_from_first sep first : forall cur,
  sep ∉ first ->
  split_from sep cur first = [rev cur ++ first] /\
  forall rest,
    split_from sep cur (first ++ sep :: rest)
    = (rev cur ++ first) :: split_from sep [] rest.
Proof.
  induction first as [|c first IH]; intros cur Hn; simpl.
  - rewrite app_nil_r, N.eqb_refl. done.
  - apply not_elem_of_cons in Hn as [Hc Hn].
    destruct (N.eqb_spec c sep) as [E|_]; [by destruct Hc|].
    destruct (IH (c :: cur) Hn) as [H1 H2]. simpl in H1, H2.
    rewrite <- !app_assoc in H1. split; [done|].
    intros rest. rewrite H2. by rewrite <- app_assoc.
Qed.

Lemma trim_start_head s c :
  head (trim_start s) = Some c -> is_white_space c = false.
Proof.
  induction s as [|x s IH]; simpl; [done|].
  destruct (is_white_space x) eqn:E; [done|]. simpl. by intros [= <-].
Qed.

Lemma trim_start_suffix s :
  exists ws, s = ws ++ trim_start s /\ Forall (fun c => is_white_space c = true) ws.
Proof.
  induction s as [|x s (ws & E & F)]; simpl; [by exists []|].
  destruct (is_white_space x) eqn:Hx; [|by exists []].
  exists (x :: ws). split; [by rewrite E at 1|by constructor].
Qed.

Lemma last_rev (l : jsstring) : last (rev l) = head l.
Proof. destruct l as [|x l]; [done|]. simpl. by rewrite last_snoc. Qed.

Lemma trim_end_last s c :
  last (trim_end s) = Some c -> is_white_space c = false.
Proof.
  unfold trim_end. rewrite last_rev. apply trim_start_head.
Qed.

Lemma trim_end_head s c :
  head s = Some c -> is_white_space c = false ->
  head (trim_end s) = Some c.
Proof.
  intros Hh Hc. unfold trim_end.
  destruct (trim_start_suffix (rev s)) as (ws & E & F).
  apply (f_equal (@rev N)) in E. rewrite rev_involutive, rev_app_distr in E.
  destruct (rev (trim_start (rev s))) as [|y t] eqn:Et.
  - simpl in E. subst s. exfalso.
    destruct (rev ws) as [|z zs] eqn:Ez; [done|]. simpl in Hh.
    injection Hh as ->.
    assert (c ∈ ws) as Hin.
    { apply list_elem_of_In, in_rev, list_elem_of_In. rewrite Ez. by left. }
    rewrite Forall_forall in F. rewrite (F _ Hin) in Hc. done.
  - rewrite E in Hh. done.
Qed.

Lemma trim_ends s c :
  head (trim s) = Some c \/ last (trim s) = Some c ->
  is_white_space c = false.
Proof.
  unfold trim. intros [H|H]; [|by apply trim_end_last in H].
  destruct (head (trim_start s)) as [x|] eqn:Hx.
  - pose proof (trim_start_head _ _ Hx) as Hw.
    rewrite (trim_end_head _ _ Hx Hw) in H. by injection H as <-.
  - destruct (trim_start s); [|done]. done.
Qed.

Lemma starts_with_spec p : forall s,
  starts_with p s = true <-> exists b, s = p ++ b.
Proof.
  induction p as [|a p IH]; intros s; simpl.
  - split; [by exists s|done].
  - destruct s as [|c s].
    + split; [done|]. by intros [b ?].
    + rewrite andb_true_iff, N.eqb_eq, IH. split.
      * intros [-> [b ->]]. by exists b.
      * intros [b [= -> ->]]. eauto.
Qed.

Lemma includes_spec p s :
  includes p s = true <-> exists a b, s = a ++ p ++ b.
Proof.
  induction s as [|c s IH]; simpl; rewrite orb_true_iff, starts_with_spec.
  - split.
    + intros [[b E]|]; [|done]. by exists [], b.
    + intros (a & b & E). left. destruct a; [by exists b|done].
  - rewrite IH. split.
    + intros [[b E]|(a & b & ->)]; [by exists [], b|].
      by exists (c :: a), b.
    + intros ([|x a] & b & E); [left; by exists b|].
      right. injection E as -> ->. eauto.
Qed.

(** X9. Whenever a domain list is configured, both routes build the
    redirect URI from its first comma-separated entry, trimmed, under
    [https], whatever the host header says; the entry used neither
    starts nor ends with white space. *)
Theorem redirectUri_first_domain env req first rest :
  44%N ∉ first ->
  REPLIT_DOMAINS env = Some (first ++ 44%N :: rest) \/
  (REPLIT_DOMAINS env = Some first /\ first <> []) ->
  login_redirectUri env req
  = inr (lit "https://" ++ trim first ++ lit "/api/auth/callback") /\
  callback_redirectUri env req
  = inr (lit "https://" ++ trim first ++ lit "/api/auth/callback") /\
  forall c, head (trim first) = Some c \/ last (trim first) = Some c ->
            is_white_space c = false.
Proof.
  intros Hn Hd. destruct (split_from_first 44 first [] Hn) as [H1 H2].
  assert (truthy_string (REPLIT_DOMAINS env) = true /\
          split 44 (default [] (REPLIT_DOMAINS env)) !! 0%nat = Some first)
    as [Ht Hs].
  { unfold split. destruct Hd as [->|[-> Hne]]; simpl.
    - rewrite H2. by destruct first.
    - rewrite H1. by destruct first. }
  unfold login_redirectUri, callback_redirectUri. rewrite Ht, Hs.
  repeat split. apply trim_ends.
Qed.

Lemma redirectUri_first_domain_witness :
  login_redirectUri env_dev request_login
  = inr (lit "https://" ++ trim (lit " a.repl.co ")
         ++ lit "/api/auth/callback") /\
  callback_redirectUri env_dev request_login
  = inr (lit "https://" ++ trim (lit " a.repl.co ")
         ++ lit "/api/auth/callback") /\
  forall c, head (trim (lit " a.repl.co ")) = Some c \/
            last (trim (lit " a.repl.co ")) = Some c ->
            is_white_space c = false.
Proof.
  apply (redirectUri_first_domain env_dev request_login
           (lit " a.repl.co ") (lit "b.repl.co")).
  - apply (bool_decide_eq_false_1 _). vm_compute. reflexivity.
  - left. reflexivity.
Defined.

(** X10. Without a domain list both routes build the redirect URI from
    the host header: [http] when the text [localhost] occurs anywhere in
    the host, [https] when it does not, and
    [http://localhost:5000/api/auth/callback] when the header is absent
    or empty. *)
Theorem redirectUri_from_host env req :
  truthy_string (REPLIT_DOMAINS env) = false ->
  let host := or_default (headers_host req) (lit "localhost:5000") in
  callback_redirectUri env req = login_redirectUri env req /\
  ((exists a b, host = a ++ lit "localhost" ++ b) ->
   login_redirectUri env req
   = inr (lit "http://" ++ host ++ lit "/api/auth/callback")) /\
  (~ (exists a b, host = a ++ lit "localhost" ++ b) ->
   login_redirectUri env req
   = inr (lit "https://" ++ host ++ lit "/api/auth/callback")) /\
  (truthy_string (headers_host req) = false ->
   login_redirectUri env req
   = inr (lit "http://localhost:5000/api/auth/callback")).
Proof.
  intros Ht host. unfold callback_redirectUri, login_redirectUri.
  rewrite Ht. fold host. split; [done|]. split; [|split].
  - intros H%includes_spec. by rewrite H.
  - intros H. destruct (includes (lit "localhost") host) eqn:E; [|done].
    by apply includes_spec in E.
  - intros Hh. subst host. by destruct (headers_host req) as [[|]|].
Qed.

Lemma redirectUri_from_host_witness :
  login_redirectUri env_local request_login
  = inr (lit "http://localhost:5000/api/auth/callback").
Proof.
  destruct (redirectUri_from_host env_local request_login eq_refl)
    as (_ & Hlocal & _ & _).
  apply Hlocal. exists [], (lit ":5000"). reflexivity.
Defined.

(** X11. The login route never throws: it answers 500 exactly when the
    client id is absent or empty, and otherwise an authorization URL on
    [SPOTIFY_AUTH_URL] whose parameters are, in order, [client_id],
    [response_type=code], [redirect_uri], [scope] and
    [show_dialog=true], the redirect URI being the derived one. *)
Theorem auth_login_outcome env req :
  (auth_login env req = LoginNotConfigured <->
   truthy_string (SPOTIFY_CLIENT_ID env) = false) /\
  (forall clientId,
     SPOTIFY_CLIENT_ID env = Some clientId -> clientId <> [] ->
     exists redirectUri,
       login_redirectUri env req = inr redirectUri /\
       auth_login env req =
         LoginUrl
           {| auth_base := SPOTIFY_AUTH_URL;
              searchParams :=
                [(lit "client_id", clientId);
                 (lit "response_type", lit "code");
                 (lit "redirect_uri", redirectUri);
                 (lit "scope",
                  lit "user-read-private user-read-email user-top-read");
                 (lit "show_dialog", lit "true")] |}).
Proof.
  destruct (login_redirectUri_returns env req) as [uri Huri].
  unfold auth_login. rewrite Huri. split.
  - by destruct (SPOTIFY_CLIENT_ID env) as [[|]|].
  - intros clientId -> Hne. exists uri. by destruct clientId.
Qed.

(** ** The OAuth callback *)

Arguments lit : simpl never.
Arguments SPOTIFY_API_BASE : simpl never.

Lemma callback_token_request_error env req e :
  callback_token_request env req = inl e ->
  (e = Error (lit "Missing code or credentials") /\
   (qfalsy (query req !! lit "code") = true \/
    truthy_string (SPOTIFY_CLIENT_ID env) = false \/
    truthy_string (SPOTIFY_CLIENT_SECRET env) = false)) \/
  from_option to_string (inr []) (query req !! lit "code") = inl e.
Proof.
  unfold callback_token_request.
  destruct (qfalsy _) eqn:Hq; simpl; [intros [= <-]; auto|].
  destruct (truthy_string (SPOTIFY_CLIENT_ID env)) eqn:Hi; simpl;
    [|intros [= <-]; auto].
  destruct (truthy_string (SPOTIFY_CLIENT_SECRET env)) eqn:Hs; simpl;
    [|intros [= <-]; auto].
  unfold callback_redirectUri.
  destruct (login_redirectUri_returns env req) as [uri Huri].
  unfold login_redirectUri in Huri. rewrite Huri.
  destruct (from_option to_string _ _); [|done]. intros [= <-]. by right.
Qed.

Section CallbackFacts.

Import MemStorage.

Variable token_endpoint : TokenRequest -> option TokenResponse.
Variable profile_endpoint : ProfileRequest -> option SpotifyProfile.

Local Abbreviation callback :=
  (auth_callback token_endpoint profile_endpoint).

Local Abbreviation profile_request tokens :=
  {| profile_url := SPOTIFY_API_BASE ++ lit "/me";
     profile_Authorization := lit "Bearer " ++ access_token tokens |}.

(** X12. A callback without a code (absent or empty), or with the client
    id or the client secret not configured, sends nothing upstream, writes
    nothing to the store or the session and redirects to
    [/?error=auth_failure]. *)
Theorem callback_missing_code_or_credentials env st date_now req :
  qfalsy (query req !! lit "code") = true \/
  truthy_string (SPOTIFY_CLIENT_ID env) = false \/
  truthy_string (SPOTIFY_CLIENT_SECRET env) = false ->
  let r := callback env st date_now req in
  redirect r = lit "/?error=auth_failure" /\ calls r = [] /\
  store_after r = st /\ session_after r = session req.
Proof.
  intros H. unfold auth_callback, callback_token_request.
  assert (qfalsy (query req !! lit "code")
          || negb (truthy_string (SPOTIFY_CLIENT_ID env))
          || negb (truthy_string (SPOTIFY_CLIENT_SECRET env)) = true) as ->.
  { destruct H as [->|[->| ->]]; simpl; by rewrite ?orb_true_r. }
  done.
Qed.

(** X13. Whatever the upstream answers, the callback redirects either to
    [/] or to [/?error=auth_failure]; in the second case the store and
    the session are exactly as before; and the profile is requested only
    after a token exchange that succeeded, under the access token that
    exchange returned. *)
Theorem callback_failure_writes_nothing env st date_now req :
  let r := callback env st date_now req in
  (redirect r = lit "/" \/ redirect r = lit "/?error=auth_failure") /\
  (redirect r = lit "/?error=auth_failure" ->
   store_after r = st /\ session_after r = session req) /\
  (forall rq, ProfileCall rq ∈ calls r ->
     exists token_rq tokens,
       callback_token_request env req = inr token_rq /\
       token_endpoint token_rq = Some tokens /\
       rq = profile_request tokens /\
       calls r = [TokenCall token_rq; ProfileCall rq]).
Proof.
  unfold auth_callback.
  destruct (callback_token_request env req) as [e|token_rq].
  { cbn [callback_failure redirect store_after session_after calls].
    split; [auto|]. split; [done|]. by intros ? ?%elem_of_nil. }
  destruct (token_endpoint token_rq) as [tokens|] eqn:Ht.
  2:{ cbn [callback_failure redirect store_after session_after calls].
      split; [auto|]. split; [done|].
      by intros ? [=]%list_elem_of_singleton. }
  assert (forall rq,
            ProfileCall rq ∈ [TokenCall token_rq;
                              ProfileCall (profile_request tokens)] ->
            exists token_rq0 tokens0,
              @inr exn _ token_rq = inr token_rq0 /\
              token_endpoint token_rq0 = Some tokens0 /\
              rq = profile_request tokens0 /\
              [TokenCall token_rq; ProfileCall (profile_request tokens)]
              = [TokenCall token_rq0; ProfileCall rq]) as Hcalls.
  { intros rq Hin. apply elem_of_cons in Hin as [[=]|Hin].
    apply list_elem_of_singleton in Hin as [= ->].
    by exists token_rq, tokens. }
  destruct (profile_endpoint _) as [profile|] eqn:Hp.
  - destruct (getUserBySpotifyId st (profile_id profile)) as [u|];
      [destruct (updateUserToken _ _ _ _ _)|destruct (createUser _ _)];
      cbn [redirect store_after session_after calls];
      (split; [auto|]);
      (split; [intros H; by vm_compute in H | exact Hcalls]).
  - cbn [callback_failure redirect store_after session_after calls]. auto.
Qed.

Lemma callback_success env st date_now req token_rq tokens profile :
  callback_token_request env req = inr token_rq ->
  token_endpoint token_rq = Some tokens ->
  profile_endpoint (profile_request tokens) = Some profile ->
  callback env st date_now req =
    let tokenExpiry' := date_now `div` 1000 + expires_in tokens in
    let '(user', st') :=
      match getUserBySpotifyId st (profile_id profile) with
      | Some u =>
          updateUserToken st (id u) (access_token tokens)
            (refresh_token tokens) tokenExpiry'
      | None =>
          let '(u, st') :=
            createUser st (profile_draft profile tokens tokenExpiry') in
          (Some u, st')
      end in
    {| redirect := lit "/";
       store_after := st';
       session_after := bind_session (session req) user';
       calls := [TokenCall token_rq; ProfileCall (profile_request tokens)] |}.
Proof. intros H1 H2 H3. unfold auth_callback. by rewrite H1, H2, H3. Qed.

(** X14. First login. On a reachable store, a callback whose two
    upstream calls succeed for an external identity not yet indexed
    stores exactly one new record, under the next id: it carries the
    profile's identity, name and email, its first image if any, its
    follower count or [0], the fresh tokens, and the expiry
    [floor(Date.now() / 1000) + expires_in]; the session is bound to
    it and the browser is sent to [/]. *)
Theorem callback_first_login env st date_now req token_rq tokens profile s :
  reachable st ->
  callback_token_request env req = inr token_rq ->
  token_endpoint token_rq = Some tokens ->
  profile_endpoint (profile_request tokens) = Some profile ->
  getUserBySpotifyId st (profile_id profile) = None ->
  session req = Some s ->
  let r := callback env st date_now req in
  let u :=
    {| id := currentId st;
       spotifyId := profile_id profile;
       displayName := display_name profile;
       email := profile_email profile;
       accessToken := access_token tokens;
       refreshToken := refresh_token tokens;
       tokenExpiry := date_now `div` 1000 + expires_in tokens;
       profileImage := profile_images profile ≫= head;
       followers := Some (default 0 (profile_followers_total profile)) |} in
  redirect r = lit "/" /\
  getUser st (currentId st) = None /\
  users (store_after r) = <[currentId st := u]> (users st) /\
  currentId (store_after r) = currentId st + 1 /\
  getUserBySpotifyId (store_after r) (profile_id profile) = Some u /\
  session_after r =
    Some {| Session.userId := Some (currentId st);
            Session.spotifyId := Some (profile_id profile);
            Session.authenticated := Some true |}.
Proof.
  intros Hst H1 H2 H3 Hnew Hs r u. subst r.
  rewrite (callback_success _ _ _ _ _ _ _ H1 H2 H3), Hnew. simpl.
  rewrite Hs. simpl.
  pose proof (reachable_consistent _ Hst) as [Hc Hu Hi].
  repeat split.
  - unfold getUser. destruct (users st !! currentId st) as [v|] eqn:Hv; [|done].
    destruct (Hu _ _ Hv). lia.
  - unfold getUserBySpotifyId. simpl. rewrite lookup_insert_eq.
    destruct (Z.eqb_spec (currentId st) 0); [lia|].
    by rewrite lookup_insert_eq.
Qed.

(** X15. Repeated login. On a reachable store, a callback whose two
    upstream calls succeed for an external identity already indexed
    creates nothing: the record found keeps its id, name, email, image
    and follower count (the profile just fetched is not copied) and
    gets the fresh tokens and expiry; the index and the counter are
    unchanged and the session is bound to that record. *)
Theorem callback_repeated_login env st date_now req token_rq tokens profile
    old s :
  reachable st ->
  callback_token_request env req = inr token_rq ->
  token_endpoint token_rq = Some tokens ->
  profile_endpoint (profile_request tokens) = Some profile ->
  getUserBySpotifyId st (profile_id profile) = Some old ->
  session req = Some s ->
  let r := callback env st date_now req in
  let u :=
    {| id := id old;
       spotifyId := spotifyId old;
       displayName := displayName old;
       email := email old;
       accessToken := access_token tokens;
       refreshToken := refresh_token tokens;
       tokenExpiry := date_now `div` 1000 + expires_in tokens;
       profileImage := profileImage old;
       followers := followers old |} in
  redirect r = lit "/" /\
  users (store_after r) = <[id old := u]> (users st) /\
  spotifyIdToUserId (store_after r) = spotifyIdToUserId st /\
  currentId (store_after r) = currentId st /\
  getUserBySpotifyId (store_after r) (profile_id profile) = Some u /\
  session_after r =
    Some {| Session.userId := Some (id old);
            Session.spotifyId := Some (profile_id profile);
            Session.authenticated := Some true |}.
Proof.
  intros Hst H1 H2 H3 Hold Hs r u. subst r u.
  rewrite (callback_success _ _ _ _ _ _ _ H1 H2 H3), Hold.
  pose proof (reachable_consistent _ Hst) as [Hc Hu Hi].
  revert Hold. unfold getUserBySpotifyId, updateUserToken.
  destruct (spotifyIdToUserId st !! profile_id profile) as [k|] eqn:Hk;
    [|done].
  destruct (Z.eqb_spec k 0); [done|]. intros Hl.
  destruct (Hu _ _ Hl) as [<- _]. rewrite Hl. simpl. rewrite Hs, Hk. simpl.
  destruct (Hi _ _ Hk) as [_ (v & Hv & Hsid)].
  rewrite Hl in Hv. injection Hv as <-.
  destruct (Z.eqb_spec (id old) 0); [done|]. rewrite lookup_insert_eq.
  rewrite Hsid. by repeat split.
Qed.

End CallbackFacts.

Lemma callback_missing_code_or_credentials_witness :
  let r := auth_callback token_endpoint_ok profile_endpoint_ok
             env_local store_alice 200000 request_plain in
  redirect r = lit "/?error=auth_failure" /\ calls r = [] /\
  store_after r = store_alice /\ session_after r = session request_plain.
Proof.
  apply (callback_missing_code_or_credentials token_endpoint_ok
           profile_endpoint_ok env_local store_alice 200000 request_plain).
  left. reflexivity.
Defined.

Lemma callback_first_login_witness :
  let r := auth_callback token_endpoint_ok profile_endpoint_ok
             env_local MemStorage.new 200000 request_callback_session in
  redirect r = lit "/" /\
  MemStorage.currentId (store_after r) = 2 /\
  (tokenExpiry <$> MemStorage.getUserBySpotifyId (store_after r) (lit "alice"))
  = Some 3800 /\
  session_after r =
    Some {| Session.userId := Some 1;
            Session.spotifyId := Some (lit "alice");
            Session.authenticated := Some true |}.
Proof.
  destruct (callback_first_login token_endpoint_ok profile_endpoint_ok
              env_local MemStorage.new 200000 request_callback_session
              _ tokens_fresh profile_alice session_anonymous
              MemStorage.reachable_new eq_refl eq_refl eq_refl eq_refl eq_refl)
    as (Hr & _ & _ & Hc & Hl & Hs).
  split; [exact Hr|]. split; [exact Hc|]. split; [|exact Hs].
  exact (f_equal (fmap tokenExpiry) Hl).
Defined.

Lemma callback_repeated_login_witness :
  let r := auth_callback token_endpoint_ok profile_endpoint_ok
             env_local store_alice 200000 request_callback_session in
  redirect r = lit "/" /\
  MemStorage.currentId (store_after r) = 2 /\
  (displayName <$> MemStorage.getUserBySpotifyId (store_after r) (lit "alice"))
  = Some (lit "Alice") /\
  (accessToken <$> MemStorage.getUserBySpotifyId (store_after r) (lit "alice"))
  = Some (lit "BQD-new").
Proof.
  destruct (callback_repeated_login token_endpoint_ok profile_endpoint_ok
              env_local store_alice 200000 request_callback_session
              _ tokens_fresh profile_alice
              (fst (MemStorage.createUser MemStorage.new alice))
              session_anonymous
              (MemStorage.reachable_step MemStorage.new
                 (MemStorage.CreateUser alice) MemStorage.reachable_new)
              eq_refl eq_refl eq_refl eq_refl eq_refl)
    as (Hr & _ & _ & Hc & Hl & _).
  split; [exact Hr|]. split; [exact Hc|].
  split; [exact (f_equal (fmap displayName) Hl)
         |exact (f_equal (fmap accessToken) Hl)].
Defined.

Lemma index_lookup_inv s sid u :
  MemStorage.reachable s ->
  MemStorage.getUserBySpotifyId s sid = Some u ->
  MemStorage.spotifyIdToUserId s !! sid = Some (id u) /\
  MemStorage.users s !! id u = Some u /\
  spotifyId u = sid /\ 1 <= id u < MemStorage.currentId s.
Proof.
  intros [Hc Hu Hi]%reachable_consistent. unfold MemStorage.getUserBySpotifyId.
  destruct (MemStorage.spotifyIdToUserId s !! sid) as [k|] eqn:Hk; [|done].
  destruct (Z.eqb_spec k 0); [done|]. intros Hl.
  destruct (Hu _ _ Hl) as [<- Hr].
  destruct (Hi _ _ Hk) as [_ (v & Hv & Hs)].
  rewrite Hl in Hv. by injection Hv as <-.
Qed.

Section CallbackComposition.

Import MemStorage.

Variable token_endpoint : TokenRequest -> option TokenResponse.
Variable profile_endpoint : ProfileRequest -> option SpotifyProfile.

Local Abbreviation callback :=
  (auth_callback token_endpoint profile_endpoint).

Local Abbreviation profile_request tokens :=
  {| profile_url := SPOTIFY_API_BASE ++ lit "/me";
     profile_Authorization := lit "Bearer " ++ access_token tokens |}.

(** After a successful callback the session names a stored record that
    carries the profile's identity and the fresh tokens. *)
Lemma callback_binds env st date_now req token_rq tokens profile s :
  reachable st ->
  callback_token_request env req = inr token_rq ->
  token_endpoint token_rq = Some tokens ->
  profile_endpoint (profile_request tokens) = Some profile ->
  session req = Some s ->
  let r := callback env st date_now req in
  exists u,
    session_after r =
      Some {| Session.userId := Some (id u);
              Session.spotifyId := Some (profile_id profile);
              Session.authenticated := Some true |} /\
    getUser (store_after r) (id u) = Some u /\ id u <> 0 /\
    spotifyId u = profile_id profile /\
    accessToken u = access_token tokens /\
    tokenExpiry u = date_now `div` 1000 + expires_in tokens.
Proof.
  intros Hst H1 H2 H3 Hs r. subst r.
  rewrite (callback_success _ _ _ _ _ _ _ _ _ H1 H2 H3).
  destruct (getUserBySpotifyId st (profile_id profile)) as [old|] eqn:Hold.
  - destruct (index_lookup_inv _ _ _ Hst Hold) as (Hk & Hl & Hsid & Hr).
    unfold updateUserToken, getUser. rewrite Hl, Hs.
    cbn [bind_session session_after store_after users].
    exists {| id := id old;
              spotifyId := spotifyId old;
              displayName := displayName old;
              email := email old;
              accessToken := access_token tokens;
              refreshToken := refresh_token tokens;
              tokenExpiry := date_now `div` 1000 + expires_in tokens;
              profileImage := profileImage old;
              followers := followers old |}.
    cbn [id spotifyId accessToken tokenExpiry].
    rewrite lookup_insert_eq, Hsid. repeat split; (done || lia).
  - pose proof (reachable_consistent _ Hst) as [Hc _ _].
    unfold createUser, getUser. rewrite Hs.
    exists (fst (createUser st
                   (profile_draft profile tokens
                      (date_now `div` 1000 + expires_in tokens)))).
    cbn [bind_session session_after store_after users profile_draft
         createUser fst ins_spotifyId ins_accessToken ins_tokenExpiry
         id spotifyId accessToken tokenExpiry].
    rewrite lookup_insert_eq. repeat split; (done || lia).
Qed.

(** X16. Login, then [/api/auth/me]. After a successful callback on a
    reachable store, [/api/auth/me] under the session the callback bound
    answers with the user of the profile's identity at every second
    before [floor(Date.now() / 1000) + expires_in] (the callback's
    clock), and 401 [token_expired] from that second on. *)
Theorem callback_then_auth_me {Json} env st date_now req token_rq tokens
    profile s date_now' req' :
  reachable st ->
  callback_token_request env req = inr token_rq ->
  token_endpoint token_rq = Some tokens ->
  profile_endpoint (profile_request tokens) = Some profile ->
  session req = Some s ->
  session req' = session_after (callback env st date_now req) ->
  let st' := store_after (callback env st date_now req) in
  let expiry := date_now `div` 1000 + expires_in tokens in
  (date_now' `div` 1000 < expiry ->
   exists m,
     auth_me (Json:=Json) st' date_now' req'
     = (res_json (Authenticated m), []) /\
     me_spotifyId m = profile_id profile /\
     Some (me_id m) = (session req' ≫= Session.userId)) /\
  (expiry <= date_now' `div` 1000 ->
   auth_me (Json:=Json) st' date_now' req'
   = (res_status_json 401 (NotAuthenticated (Some (lit "token_expired"))),
      [])).
Proof.
  intros Hst H1 H2 H3 Hs Hs' st' expiry.
  destruct (callback_binds env st date_now req _ _ _ _ Hst H1 H2 H3 Hs)
    as (u & Hb & Hg & Hz & Hsid & _ & He).
  rewrite Hb in Hs'. fold st' in Hg. unfold auth_me.
  rewrite (session_userId_bound req' _ (id u) Hs' eq_refl eq_refl Hz), Hg, He.
  fold expiry. rewrite Hs'. cbn [mbind option_bind Session.userId].
  destruct (Z.leb_spec expiry (date_now' `div` 1000)); split; intros; try lia.
  - done.
  - eexists. split; [reflexivity|]. by cbn [me_spotifyId me_id].
Qed.

(** X17. Login, then a proxy route. After a successful callback on a
    reachable store, a proxy request under the bound session (on a top
    route, with [time_range] absent or empty) whose [limit] can be
    turned into a string sends exactly one upstream request, to the
    route's path, under the access token the token exchange just
    returned. *)
Theorem callback_then_proxy {Json} (upstream : UpstreamRequest -> option Json)
    env st date_now req token_rq tokens profile s e req' limit_text :
  reachable st ->
  callback_token_request env req = inr token_rq ->
  token_endpoint token_rq = Some tokens ->
  profile_endpoint (profile_request tokens) = Some profile ->
  session req = Some s ->
  session req' = session_after (callback env st date_now req) ->
  e = RecentlyPlayed \/ qfalsy (query req' !! lit "time_range") = true ->
  to_string (qor (query req' !! lit "limit") (QString (lit "20")))
  = inr limit_text ->
  exists rq,
    snd (proxy upstream e (store_after (callback env st date_now req)) req')
    = [rq] /\
    url rq = SPOTIFY_API_BASE ++ endpoint_path e /\
    headers_Authorization rq = lit "Bearer " ++ access_token tokens.
Proof.
  intros Hst H1 H2 H3 Hs Hs' He Hl.
  destruct (callback_binds env st date_now req _ _ _ _ Hst H1 H2 H3 Hs)
    as (u & Hb & Hg & Hz & _ & Ha & _).
  rewrite Hb in Hs'. rewrite proxy_outline_correct. unfold proxy_outline.
  assert (exists tr, validated_time_range e req' = inr tr) as [tr ->].
  { assert (e = RecentlyPlayed \/ e <> RecentlyPlayed) as [->|Hne]
      by (destruct e; auto); [by eexists|].
    destruct He as [->|Hq]; [by eexists|].
    rewrite (validated_time_range_default e req' Hne Hq). by eexists. }
  rewrite (session_userId_bound req' _ (id u) Hs' eq_refl eq_refl Hz), Hg, Hl.
  eexists. split; [reflexivity|]. by rewrite <- Ha.
Qed.

(** X18. The callback keeps the store reachable: whatever the upstream
    answers, the store it leaves is the old one or the old one after one
    [createUser] or one [updateUserToken]. *)
Theorem callback_keeps_store_reachable env st date_now req :
  reachable st -> reachable (store_after (callback env st date_now req)).
Proof.
  intros Hst. unfold auth_callback.
  destruct (callback_token_request env req) as [e|token_rq]; [done|].
  destruct (token_endpoint token_rq) as [tokens|]; [|done].
  destruct (profile_endpoint _) as [profile|]; [|done].
  destruct (getUserBySpotifyId st (profile_id profile)) as [u|].
  - pose proof (reachable_step st
                  (UpdateUserToken (id u) (access_token tokens)
                     (refresh_token tokens)
                     (date_now `div` 1000 + expires_in tokens)) Hst) as H.
    cbn [step] in H. by destruct (updateUserToken _ _ _ _ _).
  - exact (reachable_step st (CreateUser _) Hst).
Qed.

End CallbackComposition.

Lemma callback_then_auth_me_witness :
  let st' := store_after
               (auth_callback token_endpoint_ok profile_endpoint_ok
                  env_local MemStorage.new 200000 request_callback_session) in
  (exists m,
     auth_me (Json:=unit) st' 3799999 request_plain
     = (res_json (Authenticated m), []) /\
     me_spotifyId m = lit "alice") /\
  auth_me (Json:=unit) st' 3800000 request_plain
  = (res_status_json 401 (NotAuthenticated (Some (lit "token_expired"))), []).
Proof.
  intros st'. split.
  - destruct (callback_then_auth_me token_endpoint_ok profile_endpoint_ok
                (Json:=unit) env_local MemStorage.new 200000
                request_callback_session _ tokens_fresh profile_alice
                session_anonymous 3799999 request_plain
                MemStorage.reachable_new eq_refl eq_refl eq_refl eq_refl
                eq_refl) as [Hlive _].
    destruct Hlive as (m & Hm & Hsid & _); [vm_compute; reflexivity|].
    exists m. split; [exact Hm|exact Hsid].
  - apply (callback_then_auth_me token_endpoint_ok profile_endpoint_ok
             (Json:=unit) env_local MemStorage.new 200000
             request_callback_session _ tokens_fresh profile_alice
             session_anonymous 3800000 request_plain
             MemStorage.reachable_new eq_refl eq_refl eq_refl eq_refl
             eq_refl).
    vm_compute. discriminate.
Defined.

Lemma callback_then_proxy_witness :
  exists rq,
    snd (proxy upstream_ok TopArtists
           (store_after
              (auth_callback token_endpoint_ok profile_endpoint_ok
                 env_local store_alice 200000 request_callback_session))
           request_plain) = [rq] /\
    url rq = SPOTIFY_API_BASE ++ endpoint_path TopArtists /\
    headers_Authorization rq = lit "Bearer " ++ access_token tokens_fresh.
Proof.
  apply (callback_then_proxy token_endpoint_ok profile_endpoint_ok
           upstream_ok env_local store_alice 200000 request_callback_session
           (mkTokenRequest SPOTIFY_TOKEN_URL (lit "abc")
              (lit "http://localhost:5000/api/auth/callback")
              (lit "authorization_code") (lit "client", lit "secret"))
           tokens_fresh profile_alice session_anonymous TopArtists
           request_plain (lit "20")).
  - exact (MemStorage.reachable_step MemStorage.new
             (MemStorage.CreateUser alice) MemStorage.reachable_new).
  - reflexivity.
  - reflexivity.
  - reflexivity.
  - reflexivity.
  - reflexivity.
  - right. reflexivity.
  - reflexivity.
Defined.

Lemma callback_keeps_store_reachable_witness :
  MemStorage.reachable
    (store_after
       (auth_callback token_endpoint_ok profile_endpoint_ok
          env_local store_alice 200000 request_callback_session)).
Proof.
  apply (callback_keeps_store_reachable token_endpoint_ok profile_endpoint_ok
           env_local store_alice 200000 request_callback_session).
  exact (MemStorage.reachable_step MemStorage.new
           (MemStorage.CreateUser alice) MemStorage.reachable_new).
Defined.

(** ** More on [/api/auth/me] and the proxy routes *)

Section RouteFacts.

Context {Json : Type} (upstream : UpstreamRequest -> option Json).

(** X19. [/api/auth/me] never answers 500 and never calls upstream. It
    answers 200 exactly when the session guard passes, the user id
    resolves and the stored expiry is after the current second, and 401
    otherwise; the 401 carries a reason only for a resolved user whose
    token has expired, and the reason is then [token_expired]. *)
Theorem auth_me_outcomes st date_now req :
  let r := fst (auth_me (Json:=Json) st date_now req) in
  snd (auth_me (Json:=Json) st date_now req) = [] /\
  (status r = 200 \/ status r = 401) /\
  (status r = 200 <->
   exists uid user,
     session_userId req = Some uid /\
     MemStorage.getUser st uid = Some user /\
     date_now `div` 1000 < tokenExpiry user) /\
  (forall reason,
     body r = NotAuthenticated (Some reason) ->
     reason = lit "token_expired" /\
     exists uid user,
       session_userId req = Some uid /\
       MemStorage.getUser st uid = Some user /\
       tokenExpiry user <= date_now `div` 1000).
Proof.
  unfold auth_me.
  destruct (session_userId req) as [uid|]; cbn.
  2:{ split; [done|]. split; [by right|]. split; [|by intros ? [=]].
      split; [done|]. by intros (? & ? & [=] & _). }
  destruct (MemStorage.getUser st uid) as [user|] eqn:Hg; cbn.
  2:{ split; [done|]. split; [by right|]. split; [|by intros ? [=]].
      split; [done|]. intros (? & ? & [= <-] & Hg' & _). congruence. }
  destruct (Z.leb_spec (tokenExpiry user) (date_now `div` 1000)); cbn.
  - split; [done|]. split; [by right|]. split.
    + split; [done|]. intros (? & ? & [= <-] & Hg' & ?).
      rewrite Hg in Hg'. injection Hg' as <-. lia.
    + intros reason [= <-]. split; [done|]. by exists uid, user.
  - split; [done|]. split; [by left|]. split; [|by intros ? [=]].
    split; [|done]. intros _. by exists uid, user.
Qed.

(** X20. On a reachable store the user payload of [/api/auth/me]
    describes the record stored under the session's user id: its [id]
    is that id, and identity, name, email, image and follower count are
    the record's. *)
Theorem auth_me_payload_is_session_user st date_now req m :
  MemStorage.reachable st ->
  body (fst (auth_me (Json:=Json) st date_now req)) = Authenticated m ->
  exists user,
    (session req ≫= Session.userId) = Some (me_id m) /\
    MemStorage.getUser st (me_id m) = Some user /\
    me_spotifyId m = spotifyId user /\
    me_displayName m = displayName user /\
    me_email m = email user /\
    me_profileImage m = profileImage user /\
    me_followers m = followers user.
Proof.
  intros [_ Hu _]%reachable_consistent. unfold auth_me.
  destruct (session_userId req) as [uid|] eqn:Hs; cbn; [|done].
  destruct (MemStorage.getUser st uid) as [user|] eqn:Hg; cbn; [|done].
  destruct (_ <=? _); cbn; [done|]. intros [= <-]. cbn.
  destruct (Hu _ _ Hg) as [-> _]. exists user.
  split; [|by repeat split].
  unfold session_userId in Hs. by destruct (no_valid_session req).
Qed.

(** X21. A session that passes the guard but names a user id the store
    does not hold is answered 401 [User not found] by every proxy
    route, with nothing sent upstream (on the top routes, when
    [time_range] is absent, empty or valid). *)
Theorem proxy_unknown_user e st req uid :
  session_userId req = Some uid ->
  MemStorage.getUser st uid = None ->
  e = RecentlyPlayed \/
  qfalsy (query req !! lit "time_range") = true \/
  (exists tr, query req !! lit "time_range" = Some (QString tr) /\
              tr ∈ timeRangeSchema) ->
  proxy upstream e st req =
    (res_status_json 401 (Message (lit "User not found")), []).
Proof.
  intros Hs Hg Hv. rewrite proxy_outline_correct. unfold proxy_outline.
  assert (exists tr, validated_time_range e req = inr tr) as [tr ->].
  { assert (e = RecentlyPlayed \/ e <> RecentlyPlayed) as [->|Hne]
      by (destruct e; auto); [by eexists|].
    destruct Hv as [->|[Hq|(tr & Hq & Hin)]]; [done| |].
    - rewrite (validated_time_range_default e req Hne Hq). by eexists.
    - rewrite (validated_time_range_accept e req tr Hne Hq Hin). by eexists. }
  by rewrite Hs, Hg.
Qed.

(** X22. Every proxy route sends at most one upstream request and
    answers 200, 401 or 500; it answers 200 only with the data the
    upstream returned for the request it sent, unchanged, and when it
    sent a request that failed it answers 500. *)
Theorem proxy_outcomes e st req :
  let r := proxy upstream e st req in
  (length (snd r) <= 1)%nat /\
  (status (fst r) = 200 \/ status (fst r) = 401 \/ status (fst r) = 500) /\
  (status (fst r) = 200 ->
   exists rq data,
     snd r = [rq] /\ upstream rq = Some data /\
     fst r = res_json (UpstreamData data)) /\
  (forall rq, rq ∈ snd r -> upstream rq = None ->
     fst r = res_status_json 500 (Message (lit "Server error"))).
Proof.
  rewrite proxy_outline_correct. unfold proxy_outline.
  assert (forall r : Response Json,
            status r = 401 \/ status r = 500 ->
            (length (snd (r, @nil UpstreamRequest)) <= 1)%nat /\
            (status (fst (r, @nil UpstreamRequest)) = 200 \/
             status (fst (r, @nil UpstreamRequest)) = 401 \/
             status (fst (r, @nil UpstreamRequest)) = 500) /\
            (status (fst (r, @nil UpstreamRequest)) = 200 ->
             exists rq data,
               snd (r, @nil UpstreamRequest) = [rq] /\
               upstream rq = Some data /\
               fst (r, @nil UpstreamRequest) = res_json (UpstreamData data)) /\
            (forall rq, rq ∈ snd (r, @nil UpstreamRequest) ->
               upstream rq = None ->
               fst (r, @nil UpstreamRequest)
               = res_status_json 500 (Message (lit "Server error"))))
    as Hquiet.
  { intros r Hr. cbn [fst snd length]. split; [lia|]. split; [tauto|].
    split; [intros E; rewrite E in Hr; by destruct Hr|].
    by intros ? ?%elem_of_nil. }
  destruct (validated_time_range e req) as [err|tr];
    [apply Hquiet; by right|].
  destruct (session_userId req) as [uid|]; [|apply Hquiet; by left].
  destruct (MemStorage.getUser st uid) as [user|]; [|apply Hquiet; by left].
  destruct (to_string _) as [err|limit_text]; [apply Hquiet; by right|].
  match goal with |- context [upstream ?x] => set (rq := x) end.
  cbv zeta. destruct (upstream rq) as [data|] eqn:Hup; cbn [fst snd length].
  - split; [lia|]. split; [by left|]. split; [intros _; by exists rq, data|].
    intros rq' ->%list_elem_of_singleton. by rewrite Hup.
  - split; [lia|]. split; [by right; right|]. split; [done|]. done.
Qed.

End RouteFacts.

Section RouteParameters.

Context {Json : Type} (upstream : UpstreamRequest -> option Json).

(** X23. When [limit] is absent or empty, every request a proxy route
    sends upstream carries [limit = 20]. *)
Theorem proxy_limit_default e st req :
  qfalsy (query req !! lit "limit") = true ->
  forall rq, rq ∈ snd (proxy upstream e st req) -> params_limit rq = Some 20.
Proof.
  intros Hq rq. rewrite proxy_outline_correct. unfold proxy_outline.
  rewrite (qor_default _ _ Hq).
  destruct (validated_time_range e req); [by intros ?%elem_of_nil|].
  destruct (session_userId req); [|by intros ?%elem_of_nil].
  destruct (MemStorage.getUser st _); [|by intros ?%elem_of_nil].
  cbv zeta. cbn [snd]. by intros ->%list_elem_of_singleton.
Qed.

(** X24. The recently-played route does not read [time_range]: setting
    the parameter to any value, valid or not, changes neither its
    response nor the request it sends. *)
Theorem recently_played_ignores_time_range st req v :
  recently_played upstream st
    {| session := session req;
       query := <[lit "time_range" := v]> (query req);
       headers_host := headers_host req |}
  = recently_played upstream st req.
Proof.
  unfold recently_played, session_userId, no_valid_session.
  cbn [session query]. rewrite lookup_insert_ne; [done|].
  by vm_compute.
Qed.

(** X25. No proxy route looks at the stored expiry: with the same access
    and refresh token written back under any other expiry, a route
    answers and sends exactly what it did before. *)
Theorem proxy_ignores_tokenExpiry e st req i u expiry :
  MemStorage.getUser st i = Some u ->
  proxy upstream e
    (snd (MemStorage.updateUserToken st i (accessToken u) (refreshToken u)
            expiry)) req
  = proxy upstream e st req.
Proof.
  intros Hu. rewrite !proxy_outline_correct. unfold proxy_outline.
  destruct (validated_time_range e req); [done|].
  destruct (session_userId req) as [uid|]; [|done].
  unfold MemStorage.updateUserToken, MemStorage.getUser in *. rewrite Hu.
  cbn [snd MemStorage.users]. rewrite lookup_insert. case_decide as E.
  - subst uid. by rewrite Hu.
  - done.
Qed.

End RouteParameters.

Lemma auth_me_payload_is_session_user_witness :
  exists user,
    (session request_plain ≫= Session.userId) = Some 1 /\
    MemStorage.getUser store_alice 1 = Some user /\
    lit "alice" = spotifyId user /\
    lit "Alice" = displayName user /\
    None = email user /\
    None = profileImage user /\
    Some 0 = followers user.
Proof.
  apply (auth_me_payload_is_session_user (Json:=unit) store_alice 0
           request_plain
           (mkMeUser 1 (lit "alice") (lit "Alice") None None (Some 0))).
  - exact (MemStorage.reachable_step MemStorage.new
             (MemStorage.CreateUser alice) MemStorage.reachable_new).
  - reflexivity.
Defined.

Lemma proxy_unknown_user_witness :
  proxy upstream_ok TopTracks MemStorage.new request_plain =
    (res_status_json 401 (Message (lit "User not found")), []).
Proof.
  apply (proxy_unknown_user upstream_ok TopTracks MemStorage.new
           request_plain 1).
  - reflexivity.
  - reflexivity.
  - right. left. reflexivity.
Defined.

Lemma proxy_limit_default_witness :
  exists rq,
    snd (proxy upstream_ok RecentlyPlayed store_alice request_plain) = [rq] /\
    params_limit rq = Some 20.
Proof.
  eexists. split; [reflexivity|].
  apply (proxy_limit_default upstream_ok RecentlyPlayed store_alice
           request_plain eq_refl).
  vm_compute. constructor.
Defined.

Lemma proxy_ignores_tokenExpiry_witness :
  proxy upstream_ok TopArtists
    (snd (MemStorage.updateUserToken store_alice 1
            (accessToken (fst (MemStorage.createUser MemStorage.new alice)))
            (refreshToken (fst (MemStorage.createUser MemStorage.new alice)))
            999999)) request_plain
  = proxy upstream_ok TopArtists store_alice request_plain.
Proof.
  apply (proxy_ignores_tokenExpiry upstream_ok TopArtists store_alice
           request_plain 1
           (fst (MemStorage.createUser MemStorage.new alice)) 999999).
  reflexivity.
Defined.

(** A [limit] that cannot be turned into a string: at
    [?limit[toString]=x] the object's own [toString] is the string [x],
    the conversion inside [parseInt] throws, and every proxy route
    answers 500 with nothing sent upstream; a callback whose [code] is
    such an object fails before the token exchange. *)
Lemma own_toString_sends_nothing :
  to_string (QObject [(lit "toString", QString (lit "x"))]) = inl TypeError /\
  to_string (QObject [(lit "valueOf", QString (lit "x"))])
  = inr (lit "[object Object]") /\
  (forall e,
     proxy upstream_ok e store_alice
       (request session_alice
          [(lit "limit", QObject [(lit "toString", QString (lit "x"))])])
     = (res_status_json 500 (Message (lit "Server error")), [])) /\
  calls
    (auth_callback token_endpoint_ok profile_endpoint_ok env_local
       store_alice 200000
       (request session_anonymous
          [(lit "code", QObject [(lit "toString", QString (lit "x"))])]))
  = [].
Proof.
  split; [by vm_compute|]. split; [by vm_compute|].
  split; [intros []; by vm_compute|by vm_compute].
Qed.
